(** * GopherSEO: crawl state, canonical validation and last-modified extraction

    A shallow embedding of the Go packages [internal/crawler],
    [internal/canonical] and [internal/lastmod].  The functions of the
    repository are translated one by one.  What the repository imports (net/url,
    path, time, encoding/json, goquery, colly) is not part of it: those
    capabilities are gathered in the class [GoStd] and in the records that
    describe what a collector run delivers, and every general theorem holds for
    any implementation of them.  A small concrete implementation, [plainStd],
    evaluates the code on the plain URLs used in the examples. *)

From Stdlib Require Import ZArith Ascii String List Lia.
From stdpp Require Import base option list sorting gmap strings.

Local Open Scope Z_scope.

(** ** The [strings] functions the repository calls *)

Definition bytes (s : string) : list ascii := list_ascii_of_string s.
Definition of_bytes (l : list ascii) : string := string_of_list_ascii l.
Definition code (a : ascii) : N := N_of_ascii a.

(** Width in bytes of a leading white-space rune ([unicode.IsSpace]) in UTF-8,
    or 0 when the text does not start with one. *)
Definition spaceWidth (l : list ascii) : nat :=
  match map code l with
  | c :: r =>
      if ((9 <=? c) && (c <=? 13) || (c =? 32))%N then 1%nat
      else match r with
           | d :: r' =>
               if ((c =? 194) && ((d =? 133) || (d =? 160)))%N then 2%nat
               else match r' with
                    | e :: _ =>
                        if ((c =? 225) && (d =? 154) && (e =? 128)
                            || (c =? 226) && (d =? 128)
                               && ((128 <=? e) && (e <=? 138) || (e =? 168)
                                   || (e =? 169) || (e =? 175))
                            || (c =? 226) && (d =? 129) && (e =? 159)
                            || (c =? 227) && (d =? 128) && (e =? 128))%N
                        then 3%nat else 0%nat
                    | [] => 0%nat
                    end
           | [] => 0%nat
           end
  | [] => 0%nat
  end.

(** The same test at the end of a text, given reversed. *)
Definition spaceWidthRev (r : list ascii) : nat :=
  if (spaceWidth (take 1 r) =? 1)%nat then 1%nat
  else if (spaceWidth (rev (take 2 r)) =? 2)%nat then 2%nat
  else if (spaceWidth (rev (take 3 r)) =? 3)%nat then 3%nat
  else 0%nat.

Fixpoint dropSpaces (width : list ascii -> nat) (fuel : nat) (l : list ascii)
  : list ascii :=
  match fuel with
  | O => l
  | S fuel' =>
      match width l with
      | O => l
      | w => dropSpaces width fuel' (drop w l)
      end
  end.

Definition strings_TrimSpace (s : string) : string :=
  let l := dropSpaces spaceWidth (String.length s) (bytes s) in
  of_bytes (rev (dropSpaces spaceWidthRev (length l) (rev l))).

Definition strings_HasPrefix (s prefix : string) : bool := String.prefix prefix s.

Definition strings_TrimPrefix (s prefix : string) : string :=
  if strings_HasPrefix s prefix
  then of_bytes (drop (String.length prefix) (bytes s))
  else s.

Fixpoint dropByte (c : ascii) (l : list ascii) : list ascii :=
  match l with
  | x :: l' => if Ascii.eqb x c then dropByte c l' else l
  | [] => []
  end.

(** [strings.TrimRight] for a cutset of one ASCII byte, the only use made of it. *)
Definition strings_TrimRight (s : string) (c : ascii) : string :=
  of_bytes (rev (dropByte c (rev (bytes s)))).

(** [strings.Cut] on bytes: the text before the first [sep], the text after
    it, and whether [sep] occurs. *)
Fixpoint cutByte (sep : ascii) (l : list ascii)
  : list ascii * list ascii * bool :=
  match l with
  | [] => ([], [], false)
  | x :: l' =>
      if Ascii.eqb x sep then ([], l', true)
      else let '(before, after, found) := cutByte sep l' in
           (x :: before, after, found)
  end.

(** [path.Base]. *)
Definition path_Base (path : string) : string :=
  if String.eqb path "" then "."
  else
    let stripped := rev (dropByte "/" (rev (bytes path))) in
    let '(lastRev, _, _) := cutByte "/" (rev stripped) in
    let last := rev lastRev in
    match last with
    | [] => "/"
    | _ => of_bytes last
    end.

(** ** Data of the imported packages *)

(** [url.URL].  [User] keeps the text of the userinfo part. *)
Record URL := mkURL {
  Scheme : string;
  Opaque : string;
  User : option string;
  Host : string;
  Path : string;
  RawPath : string;
  OmitHost : bool;
  ForceQuery : bool;
  RawQuery : string;
  Fragment : string;
  RawFragment : string
}.

Definition set_Fragment (f : string) (u : URL) : URL :=
  mkURL (Scheme u) (Opaque u) (User u) (Host u) (Path u) (RawPath u)
        (OmitHost u) (ForceQuery u) (RawQuery u) f (RawFragment u).

Definition set_Path (p : string) (u : URL) : URL :=
  mkURL (Scheme u) (Opaque u) (User u) (Host u) p (RawPath u)
        (OmitHost u) (ForceQuery u) (RawQuery u) (Fragment u) (RawFragment u).

(** [time.Time]: an instant and the location it is presented in. *)
Record Time := mkTime { unixNano : Z; location : string }.

Definition Time_UTC (t : Time) : Time := mkTime (unixNano t) "UTC".

(** What [encoding/json] decodes into [interface{}]. *)
#[warnings="-register-all"]
Inductive JSON :=
| JNull
| JBool (b : bool)
| JNumber (literal : string)
| JString (s : string)
| JArray (items : list JSON)
| JObject (fields : list (string * JSON)).

(** A decoded [map[string]interface{}]: keys are distinct, [obj[k]] is the
    binding of [k]. *)
Definition JMap := list (string * JSON).

Fixpoint JMap_get (k : string) (fields : JMap) : option JSON :=
  match fields with
  | [] => None
  | (k', v) :: rest => if String.eqb k' k then Some v else JMap_get k rest
  end.

(** [http.Header] and [Header.Get] for a key already in canonical form. *)
Definition Header := gmap string (list string).

Definition Header_Get (h : Header) (key : string) : string :=
  match h !! key with
  | Some (v :: _) => v
  | _ => ""
  end.

(** A goquery selection is the list of matched nodes in document order; of a
    node the code reads attributes and text. *)
Record Node := mkNode { Attr : string -> option string; Text : string }.

Record Document := mkDocument { Find : string -> list Node }.

(** The double quote of attribute selectors. *)
Definition dq : string := String "034"%char EmptyString.

Definition AttrOr (n : Node) (name fallback : string) : string :=
  default fallback (Attr n name).

(** ** The imported functions *)

Class GoStd := {
  (** [url.Parse]; [None] is a parse error. *)
  url_Parse : string -> option URL;
  url_String : URL -> string;
  url_Hostname : URL -> string;
  url_ResolveReference : URL -> URL -> URL;
  (** [path.Match pattern name], the boolean result; it is false whenever an
      error is returned, and the callers drop the error. *)
  path_Match : string -> string -> bool;
  strings_EqualFold : string -> string -> bool;
  (** [time.Parse layout value]. *)
  time_Parse : string -> string -> option Time;
  (** [json.Unmarshal] into a [map[string]interface{}] and into a slice of
      them. *)
  json_Unmarshal_map : string -> option JMap;
  json_Unmarshal_slice : string -> option (list JMap)
}.

(** ** Package lastmod *)

Module lastmod.

(** The layouts tried in order: RFC3339, UTC explicit, no zone, date only,
    RFC1123, RFC1123Z, RFC850 and a compact RFC1123 form. *)
Definition knownFormats : list string :=
  [ "2006-01-02T15:04:05Z07:00";
    "2006-01-02T15:04:05Z";
    "2006-01-02T15:04:05";
    "2006-01-02";
    "Mon, 02 Jan 2006 15:04:05 MST";
    "Mon, 02 Jan 2006 15:04:05 -0700";
    "Monday, 02-Jan-06 15:04:05 MST";
    "Mon, 2 Jan 2006 15:04:05 MST" ].

Section Extraction.
Context `{GoStd}.

Fixpoint parseLayouts (layouts : list string) (raw : string) : option Time :=
  match layouts with
  | [] => None
  | layout :: rest =>
      match time_Parse layout raw with
      | Some t => Some t
      | None => parseLayouts rest raw
      end
  end.

Definition parseTime (raw : string) : option Time :=
  let raw := strings_TrimSpace raw in
  if String.eqb raw "" then None else parseLayouts knownFormats raw.

(** [extractDateModified] on a decoded value: only an object can hold the
    key, and the items of its "@graph" array are searched in order. *)
Fixpoint dateModifiedOf (v : JSON) : option Time :=
  match v with
  | JObject fields =>
      let direct :=
        match JMap_get "dateModified" fields with
        | Some (JString s) => parseTime s
        | _ => None
        end in
      match direct with
      | Some t => Some t
      | None =>
          (fix graph (fs : list (string * JSON)) : option Time :=
             match fs with
             | [] => None
             | (k, g) :: fs' =>
                 if String.eqb k "@graph" then
                   match g with
                   | JArray items =>
                       (fix each (l : list JSON) : option Time :=
                          match l with
                          | [] => None
                          | item :: l' =>
                              match dateModifiedOf item with
                              | Some t => Some t
                              | None => each l'
                              end
                          end) items
                   | _ => None
                   end
                 else graph fs'
             end) fields
      end
  | _ => None
  end.

Definition extractDateModified (obj : JMap) : option Time :=
  dateModifiedOf (JObject obj).

Fixpoint firstDateModified (arr : list JMap) : option Time :=
  match arr with
  | [] => None
  | item :: rest =>
      match extractDateModified item with
      | Some t => Some t
      | None => firstDateModified rest
      end
  end.

(** The body of the [EachWithBreak] callback, over the matched scripts. *)
Fixpoint scanJSONLD (scripts : list Node) : option Time :=
  match scripts with
  | [] => None
  | s :: rest =>
      let raw := strings_TrimSpace (Text s) in
      if String.eqb raw "" then scanJSONLD rest
      else
        match json_Unmarshal_map raw with
        | Some obj =>
            match extractDateModified obj with
            | Some t => Some t
            | None => scanJSONLD rest
            end
        | None =>
            match json_Unmarshal_slice raw with
            | Some arr =>
                match firstDateModified arr with
                | Some t => Some t
                | None => scanJSONLD rest
                end
            | None => scanJSONLD rest
            end
        end
  end.

Definition jsonldSelector : string :=
  "script[type=" +:+ dq +:+ "application/ld+json" +:+ dq +:+ "]".

Definition fromJSONLD (doc : Document) : option Time :=
  scanJSONLD (Find doc jsonldSelector).

Definition articleSelector : string :=
  "meta[property=" +:+ dq +:+ "article:modified_time" +:+ dq +:+ "]".

Definition ogSelector : string :=
  "meta[property=" +:+ dq +:+ "og:updated_time" +:+ dq +:+ "]".

Definition metaSelectors : list string := [articleSelector; ogSelector].

(** [doc.Find(sel).First().Attr("content")]. *)
Definition firstContent (doc : Document) (sel : string) : option string :=
  match Find doc sel with
  | [] => None
  | n :: _ => Attr n "content"
  end.

Fixpoint scanMetaTags (doc : Document) (selectors : list string) : option Time :=
  match selectors with
  | [] => None
  | sel :: rest =>
      match firstContent doc sel with
      | Some val =>
          match parseTime (strings_TrimSpace val) with
          | Some t => Some t
          | None => scanMetaTags doc rest
          end
      | None => scanMetaTags doc rest
      end
  end.

Definition fromMetaTags (doc : Document) : option Time :=
  scanMetaTags doc metaSelectors.

Definition fromHeader (header : Header) : option Time :=
  let raw := strings_TrimSpace (Header_Get header "Last-Modified") in
  if String.eqb raw "" then None else parseTime raw.

(** [header] and [doc] may be [nil] in the source. *)
Definition GetLastModified (header : option Header) (doc : option Document)
    (now : Time) : Time :=
  match doc ≫= fromJSONLD with
  | Some t => Time_UTC t
  | None =>
      match doc ≫= fromMetaTags with
      | Some t => Time_UTC t
      | None =>
          match header ≫= fromHeader with
          | Some t => Time_UTC t
          | None => Time_UTC now
          end
      end
  end.

End Extraction.

End lastmod.

(** ** Package canonical *)

Module canonical.

(** [Info] contains canonical tag extraction details for a crawled page. *)
Record Info := mkInfo {
  PageURL : string;
  CanonicalURL : string;
  TagCount : Z;
  Missing : bool;
  Multiple : bool
}.

Definition IssueType := string.

Definition IssueNonHTTPScheme : IssueType := "non_http_scheme".
Definition IssueCrossDomain : IssueType := "cross_domain".
Definition IssueTargetBroken : IssueType := "target_broken".
Definition IssueTargetRedirect : IssueType := "target_redirect".
Definition IssueLoopOrChain : IssueType := "loop_or_chain".

(** [Issue] represents a canonical validation finding for a page. *)
Record Issue := mkIssue {
  issue_PageURL : string;
  issue_CanonicalURL : string;
  issue_Type : IssueType;
  issue_Detail : string
}.

#[global] Instance Issue_eq_dec : EqDecision Issue.
Proof. solve_decision. Defined.

Definition canonicalSelector : string :=
  "link[rel=" +:+ dq +:+ "canonical" +:+ dq +:+ "]".

(** The [EachWithBreak] callback of [Extract]: the first href that is not
    blank, trimmed. *)
Fixpoint firstHref (links : list Node) : string :=
  match links with
  | [] => ""
  | s :: rest =>
      let href := strings_TrimSpace (AttrOr s "href" "") in
      if String.eqb href "" then firstHref rest else href
  end.

Section Extraction.
Context `{GoStd}.

Definition normalizeURL (raw : string) : option string :=
  match url_Parse raw with
  | None => None
  | Some parsed =>
      let parsed := set_Fragment "" parsed in
      let parsed :=
        if String.eqb (Path parsed) "" then set_Path "/" parsed else parsed in
      let parsed :=
        if negb (String.eqb (Path parsed) "/")
        then set_Path (strings_TrimRight (Path parsed) "/") parsed
        else parsed in
      Some (url_String parsed)
  end.

Definition resolveAgainstPage (pageURL href : string) : option string :=
  match url_Parse pageURL with
  | None => None
  | Some base =>
      match url_Parse href with
      | None => None
      | Some parsed =>
          let resolved := url_ResolveReference base parsed in
          normalizeURL (url_String resolved)
      end
  end.

Definition Extract (pageURL : string) (doc : option Document) : Info :=
  match doc with
  | None => mkInfo pageURL "" 0 true false
  | Some doc =>
      let canonicalLinks := Find doc canonicalSelector in
      let tagCount := Z.of_nat (length canonicalLinks) in
      if tagCount =? 0 then mkInfo pageURL "" tagCount true false
      else
        let multiple := 1 <? tagCount in
        let found := firstHref canonicalLinks in
        if String.eqb found "" then mkInfo pageURL "" tagCount true multiple
        else
          match resolveAgainstPage pageURL found with
          | None => mkInfo pageURL found tagCount false multiple
          | Some resolved => mkInfo pageURL resolved tagCount false multiple
          end
  end.

End Extraction.

Section Validation.
Context `{GoStd}.

Definition validatePair (page target : string) (statusByURL : gmap string Z)
  : option Issue :=
  match url_Parse target with
  | None => None
  | Some parsedTarget =>
      if negb (String.eqb (Scheme parsedTarget) "http")
         && negb (String.eqb (Scheme parsedTarget) "https")
      then Some (mkIssue page target IssueNonHTTPScheme
                   "canonical target is not HTTP(S)")
      else
        let crossDomain :=
          match url_Parse page with
          | Some parsedPage =>
              negb (strings_EqualFold (url_Hostname parsedPage)
                      (url_Hostname parsedTarget))
          | None => false
          end in
        if crossDomain
        then Some (mkIssue page target IssueCrossDomain
                     "canonical target is on a different host")
        else
          match statusByURL !! target with
          | Some status =>
              if (300 <=? status) && (status <? 400)
              then Some (mkIssue page target IssueTargetRedirect
                           "canonical target responds with redirect")
              else if (status =? 0) || (400 <=? status)
              then Some (mkIssue page target IssueTargetBroken
                           "canonical target is broken/unreachable")
              else None
          | None => None
          end
  end.

End Validation.

Definition chainIssue (start target : string) : Issue :=
  mkIssue start target IssueLoopOrChain "canonical chain detected".

Definition loopIssue (start target : string) : Issue :=
  mkIssue start target IssueLoopOrChain "canonical loop detected".

(** The [for] loop of [detectLoopOrChain].  [fuel] bounds the number of
    iterations; the outer [None] means the loop has not returned within it. *)
Fixpoint walkChain (fuel : nat) (canonicalByPage : gmap string string)
    (start target : string) (visited : gmap string Z) (path : list string)
    (current : string) (steps : Z) : option (option Issue) :=
  match fuel with
  | O => None
  | S fuel' =>
      match canonicalByPage !! current with
      | None =>
          Some (if 2 <=? steps then Some (chainIssue start target) else None)
      | Some next =>
          if String.eqb next "" then
            Some (if 2 <=? steps then Some (chainIssue start target) else None)
          else
            match visited !! current with
            | Some _ => Some (Some (loopIssue start target))
            | None =>
                let visited := <[current := Z.of_nat (length path) - 1]> visited in
                if String.eqb next current then
                  Some (if 2 <=? steps then Some (chainIssue start target)
                        else None)
                else
                  let path := path ++ [next] in
                  let current := next in
                  let steps := steps + 1 in
                  if Z.of_nat (size canonicalByPage) + 1 <? steps
                  then Some (Some (loopIssue start target))
                  else walkChain fuel' canonicalByPage start target visited
                         path current steps
            end
      end
  end.

Definition detectLoopOrChainFuel (fuel : nat) (start : string)
    (canonicalByPage : gmap string string) : option (option Issue) :=
  match canonicalByPage !! start with
  | None => Some None
  | Some target =>
      if String.eqb target "" || String.eqb target start then Some None
      else walkChain fuel canonicalByPage start target {[ start := 0 ]}
             [start; target] target 1
  end.

(** The loop leaves by its own step bound after at most [len + 1]
    iterations, so that much fuel is what the source runs with. *)
Definition detectLoopOrChain (start : string)
    (canonicalByPage : gmap string string) : option (option Issue) :=
  detectLoopOrChainFuel (S (size canonicalByPage)) start canonicalByPage.

Definition pairKey (issue : Issue) : string :=
  issue_Type issue +:+ "|" +:+ issue_PageURL issue +:+ "|"
    +:+ issue_CanonicalURL issue.

Definition chainKey (issue : Issue) : string :=
  issue_Type issue +:+ "|" +:+ issue_PageURL issue +:+ "|"
    +:+ issue_CanonicalURL issue +:+ "|" +:+ issue_Detail issue.

(** The comparison given to [sort.Slice]. *)
Definition issueLess (a b : Issue) : bool :=
  if negb (String.eqb (issue_PageURL a) (issue_PageURL b))
  then String.ltb (issue_PageURL a) (issue_PageURL b)
  else if negb (String.eqb (issue_Type a) (issue_Type b))
  then String.ltb (issue_Type a) (issue_Type b)
  else if negb (String.eqb (issue_CanonicalURL a) (issue_CanonicalURL b))
  then String.ltb (issue_CanonicalURL a) (issue_CanonicalURL b)
  else String.ltb (issue_Detail a) (issue_Detail b).

Definition issueLe (a b : Issue) : Prop := issueLess b a = false.

#[global] Instance issueLe_dec : RelDecision issueLe.
Proof. intros a b. unfold issueLe. apply _. Defined.

Section Validate.
Context `{GoStd}.

(** One iteration of the [range] loop of [Validate] on the issues collected
    so far and the keys seen. *)
Definition validatePage (canonicalByPage : gmap string string)
    (statusByURL : gmap string Z) (acc : list Issue * gset string)
    (page target : string) : option (list Issue * gset string) :=
  let '(issues, seen) := acc in
  let '(issues, seen) :=
    match validatePair page target statusByURL with
    | Some issue =>
        let key := pairKey issue in
        if decide (key ∈ seen) then (issues, seen)
        else (issues ++ [issue], {[ key ]} ∪ seen)
    | None => (issues, seen)
    end in
  match detectLoopOrChain page canonicalByPage with
  | None => None
  | Some (Some issue) =>
      let key := chainKey issue in
      if decide (key ∈ seen) then Some (issues, seen)
      else Some (issues ++ [issue], {[ key ]} ∪ seen)
  | Some None => Some (issues, seen)
  end.

Fixpoint validatePages (canonicalByPage : gmap string string)
    (statusByURL : gmap string Z) (acc : list Issue * gset string)
    (entries : list (string * string)) : option (list Issue * gset string) :=
  match entries with
  | [] => Some acc
  | (page, target) :: rest =>
      match validatePage canonicalByPage statusByURL acc page target with
      | None => None
      | Some acc => validatePages canonicalByPage statusByURL acc rest
      end
  end.

(** [Validate] with the order in which [range] visits the map made explicit:
    Go leaves it unspecified, [entries] is any enumeration of the map. *)
Definition ValidateIn (entries : list (string * string))
    (canonicalByPage : gmap string string) (statusByURL : gmap string Z)
  : option (list Issue) :=
  match validatePages canonicalByPage statusByURL ([], ∅) entries with
  | None => None
  | Some (issues, _) => Some (merge_sort issueLe issues)
  end.

Definition Validate (canonicalByPage : gmap string string)
    (statusByURL : gmap string Z) : option (list Issue) :=
  ValidateIn (map_to_list canonicalByPage) canonicalByPage statusByURL.

End Validate.

End canonical.

(** ** Package crawler *)

Module crawler.

(** [Options] configures a crawl run. *)
Record Options := mkOptions {
  RootURL : string;
  MaxDepth : Z;
  Threads : Z;
  UserAgent : string;
  ExcludePatterns : list string;
  RequestTimeout : Z
}.

Record BrokenLinkTask := mkBrokenLinkTask {
  task_URL : string;
  task_Status : Z;
  task_Sources : list string
}.

(** [Result] holds the output of a completed crawl. *)
Record Result := mkResult {
  ValidURLs : list string;
  BrokenLinks : gmap string Z;
  BrokenLinkTasks : list BrokenLinkTask;
  LastModified : gmap string Time;
  Discovered : Z;
  ExcludedURLs : Z
}.

(** The errors [Crawl] builds with [fmt.Errorf]. *)
Inductive CrawlError :=
| RootURLRequired
| InvalidRootURL
| InvalidRootURLMissingHost
| ConfigureCrawlerConcurrency (cause : string)
| StartCrawling (cause : string).

Definition defaultUserAgent : string := "GopherSEO-Bot/1.0".

Section Pure.
Context `{GoStd}.

Definition normalizeURL (raw : string) : option (string * URL) :=
  match url_Parse raw with
  | None => None
  | Some parsed =>
      let parsed := set_Fragment "" parsed in
      let parsed :=
        if String.eqb (Path parsed) "" then set_Path "/" parsed else parsed in
      let parsed :=
        if negb (String.eqb (Path parsed) "/")
        then set_Path (strings_TrimRight (Path parsed) "/") parsed
        else parsed in
      Some (url_String parsed, parsed)
  end.

Definition normalizeRoot (raw : string) : CrawlError + (string * URL) :=
  let clean := strings_TrimSpace raw in
  if String.eqb clean "" then inl RootURLRequired
  else
    let clean :=
      if negb (strings_HasPrefix clean "http://")
         && negb (strings_HasPrefix clean "https://")
      then "https://" +:+ clean else clean in
    match normalizeURL clean with
    | None => inl InvalidRootURL
    | Some (normalized, parsed) =>
        if String.eqb (url_Hostname parsed) "" then inl InvalidRootURLMissingHost
        else inr (normalized, parsed)
    end.

(** The arguments are pointers in the source: [None] is [nil]. *)
Definition isHTTP (u : option URL) : bool :=
  match u with
  | None => false
  | Some u => String.eqb (Scheme u) "http" || String.eqb (Scheme u) "https"
  end.

Definition isInternal (root candidate : option URL) : bool :=
  match root, candidate with
  | Some root, Some candidate =>
      strings_EqualFold (url_Hostname root) (url_Hostname candidate)
  | _, _ => false
  end.

Fixpoint shouldExclude (link : string) (patterns : list string) : bool :=
  match patterns with
  | [] => false
  | pattern :: rest =>
      let pattern := strings_TrimSpace pattern in
      if String.eqb pattern "" then shouldExclude link rest
      else if path_Match pattern link then true
      else
        match url_Parse link with
        | None => shouldExclude link rest
        | Some parsed =>
            if path_Match pattern (Path parsed) then true
            else if path_Match pattern (path_Base (Path parsed)) then true
            else if negb (String.eqb (RawQuery parsed) "") then
              let queryPath := Path parsed +:+ "?" +:+ RawQuery parsed in
              if path_Match pattern queryPath then true
              else if path_Match pattern (strings_TrimPrefix queryPath "/")
              then true
              else shouldExclude link rest
            else shouldExclude link rest
        end
  end.

End Pure.

(** *** What the colly collector delivers

    The collector is imported code.  A run of it is described by what it hands
    to the three callbacks [Crawl] registers.  Every callback mutates the
    shared maps inside one critical section of the mutex [mu], so a run is a
    sequence of callback invocations in the order they took the lock. *)

(** The element given to the [OnHTML] callback: its href attribute and, of
    its request, the URL and the [AbsoluteURL] method. *)
Record HTMLElement := mkHTMLElement {
  elem_href : string;
  elem_RequestURL : string;
  elem_AbsoluteURL : string -> string
}.

(** The response given to [OnResponse]; [resp_Document] is what
    [goquery.NewDocumentFromReader] makes of the body, [None] for [nil]. *)
Record Response := mkResponse {
  resp_RequestURL : string;
  resp_StatusCode : Z;
  resp_Headers : option Header;
  resp_Document : option Document
}.

(** The response given to [OnError]: [err_RequestURL] is [None] when
    [r.Request] or [r.Request.URL] is [nil]. *)
Record ErrorResponse := mkErrorResponse {
  err_RequestURL : option string;
  err_StatusCode : Z
}.

Inductive Callback :=
| OnHTML (e : HTMLElement)
| OnResponse (r : Response)
| OnError (r : option ErrorResponse).

(** The options [Crawl] builds the collector with. *)
Record CollectorConfig := mkCollectorConfig {
  cfg_Async : bool;
  cfg_UserAgent : string;
  cfg_AllowedDomains : list string;
  cfg_MaxDepth : option Z;
  cfg_IgnoreRobotsTxt : bool;
  cfg_Parallelism : Z;
  cfg_RequestTimeout : option Z
}.

(** One run of a collector: the error of [c.Limit], the error of the first
    [c.Visit], and the callbacks invoked until [c.Wait] returns. *)
Record CollectorRun := mkCollectorRun {
  run_LimitError : option string;
  run_VisitError : option string;
  run_Callbacks : list Callback
}.

(** The maps and the counter guarded by [mu]. *)
Record CrawlState := mkCrawlState {
  valid : gset string;
  broken : gmap string Z;
  discovered : gset string;
  sources : gmap string (gset string);
  lastModified : gmap string Time;
  excluded : Z
}.

Definition initialState : CrawlState := mkCrawlState ∅ ∅ ∅ ∅ ∅ 0.

(** [excluded++] on a 64-bit [int]. *)
Definition increment (n : Z) : Z := (n + 1 + 2 ^ 63) mod 2 ^ 64 - 2 ^ 63.

Section Crawl.
Context `{GoStd}.

(** The [OnHTML] callback.  The second component is the URL handed to
    [e.Request.Visit], if the callback gets that far. *)
Definition onHTML (parsedRoot : URL) (opts : Options) (st : CrawlState)
    (e : HTMLElement) : CrawlState * option string :=
  let raw := strings_TrimSpace (elem_href e) in
  if String.eqb raw "" then (st, None)
  else
    let absolute := elem_AbsoluteURL e raw in
    if String.eqb absolute "" then (st, None)
    else
      match normalizeURL absolute with
      | None => (st, None)
      | Some (normalizedLink, parsedLink) =>
          if negb (isHTTP (Some parsedLink))
             || negb (isInternal (Some parsedRoot) (Some parsedLink))
          then (st, None)
          else if shouldExclude normalizedLink (ExcludePatterns opts)
          then (mkCrawlState (valid st) (broken st) (discovered st) (sources st)
                  (lastModified st) (increment (excluded st)), None)
          else
            let discovered := {[ normalizedLink ]} ∪ discovered st in
            let sources :=
              match normalizeURL (elem_RequestURL e) with
              | Some (sourceURL, _) =>
                  <[ normalizedLink :=
                       {[ sourceURL ]} ∪ default ∅ (sources st !! normalizedLink) ]>
                    (sources st)
              | None => sources st
              end in
            (mkCrawlState (valid st) (broken st) discovered sources
               (lastModified st) (excluded st), Some normalizedLink)
      end.

(** The [OnResponse] callback. *)
Definition onResponse (now : Time) (st : CrawlState) (r : Response)
  : CrawlState :=
  match normalizeURL (resp_RequestURL r) with
  | None => st
  | Some (normalizedLink, _) =>
      let discovered := {[ normalizedLink ]} ∪ discovered st in
      if (200 <=? resp_StatusCode r) && (resp_StatusCode r <? 400) then
        mkCrawlState ({[ normalizedLink ]} ∪ valid st)
          (delete normalizedLink (broken st)) discovered (sources st)
          (<[ normalizedLink :=
                lastmod.GetLastModified (resp_Headers r) (resp_Document r) now ]>
             (lastModified st))
          (excluded st)
      else
        mkCrawlState (valid st ∖ {[ normalizedLink ]})
          (<[ normalizedLink := resp_StatusCode r ]> (broken st)) discovered
          (sources st) (lastModified st) (excluded st)
  end.

(** The [OnError] callback. *)
Definition onError (st : CrawlState) (r : option ErrorResponse) : CrawlState :=
  match r with
  | None => st
  | Some r =>
      match err_RequestURL r with
      | None => st
      | Some requestURL =>
          match normalizeURL requestURL with
          | None => st
          | Some (normalizedLink, _) =>
              let status := err_StatusCode r in
              mkCrawlState (valid st ∖ {[ normalizedLink ]})
                (<[ normalizedLink := status ]> (broken st)) (discovered st)
                (sources st) (lastModified st) (excluded st)
          end
      end
  end.

Definition handle (parsedRoot : URL) (opts : Options) (now : Time)
    (st : CrawlState) (cb : Callback) : CrawlState :=
  match cb with
  | OnHTML e => fst (onHTML parsedRoot opts st e)
  | OnResponse r => onResponse now st r
  | OnError r => onError st r
  end.

(** The state when [c.Wait] returns. *)
Definition runCallbacks (parsedRoot : URL) (opts : Options) (now : Time)
    (cbs : list Callback) : CrawlState :=
  foldl (handle parsedRoot opts now) initialState cbs.

Definition taskLe (a b : BrokenLinkTask) : Prop :=
  String.le (task_URL a) (task_URL b).

#[global] Instance taskLe_dec : RelDecision taskLe.
Proof. intros a b. unfold taskLe. apply _. Defined.

Definition brokenTask (sources : gmap string (gset string))
    (entry : string * Z) : BrokenLinkTask :=
  let sourceList :=
    match sources !! entry.1 with
    | Some sourceSet => merge_sort String.le (elements sourceSet)
    | None => []
    end in
  mkBrokenLinkTask entry.1 entry.2 sourceList.

(** The code after [c.Wait]: the two [range] loops skip what
    [shouldExclude] matches, the slices are sorted, the [Result] is built. *)
Definition assemble (opts : Options) (st : CrawlState) : Result :=
  let kept (u : string) : Prop :=
    shouldExclude u (ExcludePatterns opts) = false in
  let validURLs := merge_sort String.le (filter kept (elements (valid st))) in
  let brokenURLs : gmap string Z :=
    filter (fun entry : string * Z => kept entry.1) (broken st) in
  let brokenTasks :=
    merge_sort taskLe (brokenTask (sources st) <$> map_to_list brokenURLs) in
  mkResult validURLs brokenURLs brokenTasks (lastModified st)
    (Z.of_nat (size (discovered st))) (excluded st).

Definition collectorConfig (opts : Options) (parsedRoot : URL)
  : CollectorConfig :=
  mkCollectorConfig true (UserAgent opts) [url_Hostname parsedRoot]
    (if 0 <? MaxDepth opts then Some (MaxDepth opts) else None)
    false (Threads opts)
    (if 0 <? RequestTimeout opts then Some (RequestTimeout opts) else None).

(** The defaults [Crawl] writes into [opts] before it builds the collector. *)
Definition withDefaults (opts : Options) : Options :=
  let opts :=
    if Threads opts <=? 0
    then mkOptions (RootURL opts) (MaxDepth opts) 5 (UserAgent opts)
           (ExcludePatterns opts) (RequestTimeout opts)
    else opts in
  if String.eqb (UserAgent opts) ""
  then mkOptions (RootURL opts) (MaxDepth opts) (Threads opts)
         defaultUserAgent (ExcludePatterns opts) (RequestTimeout opts)
  else opts.

(** [Crawl].  [collector] is the imported collector: for the configuration and
    the URL it is started on, the run that takes place; [now] is what
    [time.Now] returns. *)
Definition Crawl (collector : CollectorConfig -> string -> CollectorRun)
    (now : Time) (opts : Options) : CrawlError + Result :=
  match normalizeRoot (RootURL opts) with
  | inl err => inl err
  | inr (normalizedRoot, parsedRoot) =>
      let opts := withDefaults opts in
      let run := collector (collectorConfig opts parsedRoot) normalizedRoot in
      match run_LimitError run with
      | Some cause => inl (ConfigureCrawlerConcurrency cause)
      | None =>
          match run_VisitError run with
          | Some cause => inl (StartCrawling cause)
          | None =>
              inr (assemble opts
                     (runCallbacks parsedRoot opts now (run_Callbacks run)))
          end
      end
  end.

End Crawl.

End crawler.

(** ** An implementation of the imported functions on plain input

    [plainStd] computes what the Go packages compute on the fragment described
    with each function, and declines ([None], [false]) outside of it.  It is
    used to run the code on concrete pages; the general theorems do not depend
    on it. *)

Module plain.

Definition isAlnum (a : ascii) : bool :=
  let c := code a in
  ((48 <=? c) && (c <=? 57) || (65 <=? c) && (c <=? 90)
   || (97 <=? c) && (c <=? 122))%N.

Definition isLetter (a : ascii) : bool :=
  let c := code a in
  ((65 <=? c) && (c <=? 90) || (97 <=? c) && (c <=? 122))%N.

Definition oneOf (set : string) (a : ascii) : bool :=
  existsb (Ascii.eqb a) (bytes set).

(** Bytes that [url] leaves as they are in a path, a host and a fragment. *)
Definition pathByte (a : ascii) : bool := isAlnum a || oneOf "-_.~$&+,/:;=@" a.
Definition hostByte (a : ascii) : bool := isAlnum a || oneOf "-." a.
Definition fragmentByte (a : ascii) : bool :=
  isAlnum a || oneOf "-_.~$&+,/:;=?@!()*" a.
Definition printable (a : ascii) : bool :=
  let c := code a in ((33 <=? c) && (c <=? 126))%N.

Definition toLower (a : ascii) : ascii :=
  let c := code a in
  if ((65 <=? c) && (c <=? 90))%N then ascii_of_N (c + 32) else a.

(** [getScheme]: the scheme and the rest; the outer [None] is the error
    "missing protocol scheme". *)
Fixpoint getScheme (i : nat) (seen rest : list ascii)
  : option (list ascii * list ascii) :=
  match rest with
  | [] => Some ([], rev seen)
  | c :: rest' =>
      if isLetter c then getScheme (S i) (c :: seen) rest'
      else if isAlnum c || oneOf "+-." c then
        match i with
        | O => Some ([], rev seen ++ rest)
        | _ => getScheme (S i) (c :: seen) rest'
        end
      else if Ascii.eqb c ":" then
        match i with
        | O => None
        | _ => Some (rev seen, rest')
        end
      else Some ([], rev seen ++ rest)
  end.

Definition hasPrefix (prefix l : list ascii) : bool :=
  strings_HasPrefix (of_bytes l) (of_bytes prefix).

Definition countByte (c : ascii) (l : list ascii) : nat :=
  length (List.filter (Ascii.eqb c) l).

Definition lastByteIs (c : ascii) (l : list ascii) : bool :=
  match rev l with
  | x :: _ => Ascii.eqb x c
  | [] => false
  end.

(** [url.Parse] for text of printable ASCII without percent escapes: a host of
    letters, digits, [-] and [.], no userinfo and no port, a path and a
    fragment of bytes that need no escaping.  Other text is declined, except
    that the errors of [getScheme] and of a colon in the first segment of a
    relative path are the errors of the library. *)
Definition Parse (rawURL : string) : option URL :=
  let '(u, frag, _) := cutByte "#" (bytes rawURL) in
  if negb (forallb printable (bytes rawURL)) then None
  else if negb (forallb fragmentByte frag) then None
  else if String.eqb (of_bytes u) "*"
  then Some (mkURL "" "" None "" "*" "" false false "" (of_bytes frag) "")
  else
    match getScheme 0 [] u with
    | None => None
    | Some (scheme, rest) =>
        let scheme := of_bytes (map toLower scheme) in
        let '(rest, rawQuery, forceQuery) :=
          if lastByteIs "?" rest && (countByte "?" rest =? 1)%nat
          then (removelast rest, [], true)
          else let '(before, after, _) := cutByte "?" rest in
               (before, after, false) in
        let finish (user : option string) (host : list ascii) (omit : bool)
            (path : list ascii) : option URL :=
          if forallb hostByte host && forallb pathByte path
          then Some (mkURL scheme "" user (of_bytes host) (of_bytes path) ""
                       omit forceQuery (of_bytes rawQuery) (of_bytes frag) "")
          else None in
        if negb (hasPrefix (bytes "/") rest) && negb (String.eqb scheme "")
        then Some (mkURL scheme (of_bytes rest) None "" "" "" false forceQuery
                     (of_bytes rawQuery) (of_bytes frag) "")
        else if negb (hasPrefix (bytes "/") rest)
                && existsb (Ascii.eqb ":") (cutByte "/" rest).1.1
        then None
        else if (negb (String.eqb scheme "") || negb (hasPrefix (bytes "///") rest))
                && hasPrefix (bytes "//") rest
        then
          let '(authority, path, slash) := cutByte "/" (drop 2 rest) in
          finish None authority false (if slash then "/"%char :: path else [])
        else if negb (String.eqb scheme "") && hasPrefix (bytes "/") rest
        then finish None [] true rest
        else finish None [] false rest
    end.

(** [URL.String] for a URL whose path, host and fragment need no escaping. *)
Definition String (u : URL) : string :=
  let buf := if String.eqb (Scheme u) "" then "" else Scheme u +:+ ":" in
  let buf :=
    if negb (String.eqb (Opaque u) "") then buf +:+ Opaque u
    else
      let buf :=
        if negb (String.eqb (Scheme u) "") || negb (String.eqb (Host u) "")
           || bool_decide (is_Some (User u))
        then
          if OmitHost u && String.eqb (Host u) ""
             && negb (bool_decide (is_Some (User u)))
          then buf
          else
            let buf :=
              if negb (String.eqb (Host u) "") || negb (String.eqb (Path u) "")
                 || bool_decide (is_Some (User u))
              then buf +:+ "//" else buf in
            let buf :=
              match User u with
              | Some ui => buf +:+ ui +:+ "@"
              | None => buf
              end in
            buf +:+ Host u
        else buf in
      let path := Path u in
      let buf :=
        if negb (String.eqb path "") && negb (strings_HasPrefix path "/")
           && negb (String.eqb (Host u) "")
        then buf +:+ "/" else buf in
      let buf :=
        if String.eqb buf ""
           && existsb (Ascii.eqb ":") (cutByte "/" (bytes path)).1.1
        then buf +:+ "./" else buf in
      buf +:+ path in
  let buf :=
    if ForceQuery u || negb (String.eqb (RawQuery u) "")
    then buf +:+ "?" +:+ RawQuery u else buf in
  if negb (String.eqb (Fragment u) "") then buf +:+ "#" +:+ Fragment u else buf.

(** [URL.Hostname] for a host without port and brackets. *)
Definition Hostname (u : URL) : string := Host u.

(** [strings.Cut] repeated: the segments between slashes. *)
Fixpoint segments (l : list ascii) : list (list ascii) :=
  match l with
  | [] => [[]]
  | x :: l' =>
      if Ascii.eqb x "/" then [] :: segments l'
      else match segments l' with
           | seg :: segs => (x :: seg) :: segs
           | [] => [[x]]
           end
  end.

(** The loop of [resolvePath] on the text written after the leading slash. *)
Fixpoint resolveSegments (segs : list (list ascii)) (dst : list ascii)
    (first : bool) : list ascii :=
  match segs with
  | [] => dst
  | elem :: rest =>
      if String.eqb (of_bytes elem) "." then resolveSegments rest dst false
      else if String.eqb (of_bytes elem) ".." then
        let '(_, beforeRev, found) := cutByte "/" (rev dst) in
        if found then resolveSegments rest (rev beforeRev) first
        else resolveSegments rest [] true
      else
        resolveSegments rest
          ((if first then dst else dst ++ ["/"%char]) ++ elem) false
  end.

Definition resolvePath (base ref : string) : string :=
  let full :=
    match bytes ref with
    | [] => bytes base
    | c :: _ =>
        if Ascii.eqb c "/" then bytes ref
        else
          let '(_, beforeRev, found) := cutByte "/" (rev (bytes base)) in
          (if found then rev beforeRev ++ ["/"%char] else []) ++ bytes ref
    end in
  match full with
  | [] => ""
  | _ =>
      let segs := segments full in
      let dst := resolveSegments segs [] true in
      let lastElem := of_bytes (List.last segs []) in
      let dst :=
        if String.eqb lastElem "." || String.eqb lastElem ".."
        then dst ++ ["/"%char] else dst in
      match dst with
      | c :: _ => if Ascii.eqb c "/" then of_bytes dst else of_bytes ("/"%char :: dst)
      | [] => "/"
      end
  end.

(** [URL.ResolveReference] for paths that need no escaping. *)
Definition ResolveReference (u ref : URL) : URL :=
  let scheme := if String.eqb (Scheme ref) "" then Scheme u else Scheme ref in
  if negb (String.eqb (Scheme ref) "") || negb (String.eqb (Host ref) "")
     || bool_decide (is_Some (User ref))
  then mkURL scheme (Opaque ref) (User ref) (Host ref)
         (resolvePath (Path ref) "") "" (OmitHost ref) (ForceQuery ref)
         (RawQuery ref) (Fragment ref) (RawFragment ref)
  else if negb (String.eqb (Opaque ref) "")
  then mkURL scheme (Opaque ref) None "" "" (RawPath ref) (OmitHost ref)
         (ForceQuery ref) (RawQuery ref) (Fragment ref) (RawFragment ref)
  else
    let inherit :=
      String.eqb (Path ref) "" && negb (ForceQuery ref)
      && String.eqb (RawQuery ref) "" in
    let rawQuery := if inherit then RawQuery u else RawQuery ref in
    let keepFragment := inherit && String.eqb (Fragment ref) "" in
    let fragment := if keepFragment then Fragment u else Fragment ref in
    let rawFragment := if keepFragment then RawFragment u else RawFragment ref in
    if String.eqb (Path ref) "" && negb (String.eqb (Opaque u) "")
    then mkURL scheme (Opaque u) None "" "" (RawPath ref) (OmitHost ref)
           (ForceQuery ref) rawQuery fragment rawFragment
    else mkURL scheme (Opaque ref) (User u) (Host u)
           (resolvePath (Path u) (Path ref)) "" (OmitHost ref) (ForceQuery ref)
           rawQuery fragment rawFragment.

(** [path.Match] for a pattern of literal bytes, [*] and [?] and a name of
    single-byte characters: [*] is any run without slash, [?] one byte other
    than a slash.  Patterns with classes or escapes are declined. *)
Fixpoint glob (pattern name : list ascii) : bool :=
  match pattern with
  | [] => match name with [] => true | _ => false end
  | p :: pattern' =>
      if Ascii.eqb p "*" then
        (fix star (n : list ascii) : bool :=
           glob pattern' n
           || match n with
              | c :: n' => if Ascii.eqb c "/" then false else star n'
              | [] => false
              end) name
      else if Ascii.eqb p "?" then
        match name with
        | c :: name' => if Ascii.eqb c "/" then false else glob pattern' name'
        | [] => false
        end
      else
        match name with
        | c :: name' => Ascii.eqb p c && glob pattern' name'
        | [] => false
        end
  end.

Definition Match (pattern name : string) : bool :=
  if existsb (oneOf "[\") (bytes pattern) then false
  else if negb (forallb printable (bytes name)) then false
  else glob (bytes pattern) (bytes name).

(** [strings.EqualFold] on ASCII letters; other bytes must be equal. *)
Definition EqualFold (a b : string) : bool :=
  String.eqb (of_bytes (map toLower (bytes a))) (of_bytes (map toLower (bytes b))).

Definition digit (a : ascii) : option Z :=
  let c := code a in
  if ((48 <=? c) && (c <=? 57))%N then Some (Z.of_N c - 48) else None.

Definition daysIn (y m : Z) : Z :=
  if (m =? 2) then
    if ((y mod 4 =? 0) && negb (y mod 100 =? 0)) || (y mod 400 =? 0)
    then 29 else 28
  else if (m =? 4) || (m =? 6) || (m =? 9) || (m =? 11) then 30 else 31.

(** Days from 1970-01-01 to the civil date. *)
Definition daysFromCivil (y m d : Z) : Z :=
  let y := if m <=? 2 then y - 1 else y in
  let era := y / 400 in
  let yoe := y - era * 400 in
  let doy := (153 * (if 2 <? m then m - 3 else m + 9) + 2) / 5 + d - 1 in
  let doe := yoe * 365 + yoe / 4 - yoe / 100 + doy in
  era * 146097 + doe - 719468.

(** [time.Parse] for the date-only layout; the other layouts are declined. *)
Definition ParseTime (layout value : string) : option Time :=
  if negb (String.eqb layout "2006-01-02") then None
  else
    match bytes value with
    | [y1; y2; y3; y4; s1; m1; m2; s2; d1; d2] =>
        match digit y1, digit y2, digit y3, digit y4, digit m1, digit m2,
              digit d1, digit d2 with
        | Some a, Some b, Some c, Some d, Some e, Some f, Some g, Some h =>
            let y := 1000 * a + 100 * b + 10 * c + d in
            let m := 10 * e + f in
            let dd := 10 * g + h in
            if Ascii.eqb s1 "-" && Ascii.eqb s2 "-" && (1 <=? m) && (m <=? 12)
               && (1 <=? dd) && (dd <=? daysIn y m)
            then Some (mkTime (daysFromCivil y m dd * 86400 * 1000000000) "UTC")
            else None
        | _, _, _, _, _, _, _, _ => None
        end
    | _ => None
    end.

(** The text of a JSON string without escapes, after its opening quote. *)
Fixpoint readString (l : list ascii) : option (list ascii * list ascii) :=
  match l with
  | [] => None
  | c :: l' =>
      if Ascii.eqb c "034" then Some ([], l')
      else if Ascii.eqb c "\" || negb (printable c || Ascii.eqb c " ") then None
      else
        match readString l' with
        | Some (text, rest) => Some (c :: text, rest)
        | None => None
        end
  end.

Definition putField (k : string) (v : JSON) (obj : JMap) : JMap :=
  List.filter (fun kv : string * JSON => negb (String.eqb kv.1 k)) obj ++ [(k, v)].

Fixpoint readFields (fuel : nat) (l : list ascii) (obj : JMap) : option JMap :=
  match fuel with
  | O => None
  | S fuel' =>
      match l with
      | q :: l1 =>
          if negb (Ascii.eqb q "034") then None
          else
            match readString l1 with
            | Some (key, colon :: q2 :: l2) =>
                if negb (Ascii.eqb colon ":" && Ascii.eqb q2 "034") then None
                else
                  match readString l2 with
                  | Some (val, [close]) =>
                      if Ascii.eqb close "}"
                      then Some (putField (of_bytes key) (JString (of_bytes val)) obj)
                      else None
                  | Some (val, sep :: l3) =>
                      if Ascii.eqb sep ","
                      then readFields fuel' l3
                             (putField (of_bytes key) (JString (of_bytes val)) obj)
                      else None
                  | _ => None
                  end
            | _ => None
            end
      | [] => None
      end
  end.

(** [json.Unmarshal] into a map for an object of string fields written
    without white space and escapes; other text is declined. *)
Definition UnmarshalMap (raw : string) : option JMap :=
  match bytes raw with
  | [open; close] =>
      if Ascii.eqb open "{" && Ascii.eqb close "}" then Some [] else None
  | open :: l =>
      if Ascii.eqb open "{" then readFields (length l) l [] else None
  | [] => None
  end.

Definition UnmarshalSlice (raw : string) : option (list JMap) := None.

End plain.

Definition plainStd : GoStd := {|
  url_Parse := plain.Parse;
  url_String := plain.String;
  url_Hostname := plain.Hostname;
  url_ResolveReference := plain.ResolveReference;
  path_Match := plain.Match;
  strings_EqualFold := plain.EqualFold;
  time_Parse := plain.ParseTime;
  json_Unmarshal_map := plain.UnmarshalMap;
  json_Unmarshal_slice := plain.UnmarshalSlice
|}.

(** ** Notions used to state the properties *)

(** *** The canonical walk, as the specification words it *)

(** The canonical a page declares; an empty target is no declaration. *)
Definition declared (m : gmap string string) (p : string) : option string :=
  match m !! p with
  | Some t => if String.eqb t "" then None else Some t
  | None => None
  end.

(** One hop: from a page to the other page it declares.  A page that is its
    own canonical ends the walk. *)
Definition hop (m : gmap string string) (p q : string) : Prop :=
  declared m p = Some q ∧ q ≠ p.

(** [walkFrom m p l]: the walk from [p] visits the pages of [l] in order. *)
Inductive walkFrom (m : gmap string string) : string -> list string -> Prop :=
| walk_stop p : walkFrom m p []
| walk_hop p q l : hop m p q -> walkFrom m q l -> walkFrom m p (q :: l).

(** The canonical of [p] differs from [p], and the walk reaches two hops or
    comes back to a page of its path. *)
Definition flaggedBySpec (m : gmap string string) (p : string) : Prop :=
  (∃ t, declared m p = Some t ∧ t ≠ p)
  ∧ ((∃ l, walkFrom m p l ∧ (2 <= length l)%nat)
     ∨ (∃ l, walkFrom m p l ∧ ¬ NoDup (p :: l))).

Definition twoHops (m : gmap string string) (p : string) : Prop :=
  ∃ t n, hop m p t ∧ hop m t n.

(** The key under which [Validate] remembers an issue. *)
Definition issueKey (i : canonical.Issue) : string :=
  if String.eqb (canonical.issue_Type i) canonical.IssueLoopOrChain
  then canonical.chainKey i else canonical.pairKey i.

(** [issues] holds a loop_or_chain issue for page [p]. *)
Definition reportsLoop (issues : list canonical.Issue) (p : string) : Prop :=
  ∃ i, i ∈ issues ∧ canonical.issue_Type i = canonical.IssueLoopOrChain
       ∧ canonical.issue_PageURL i = p.

(** What the [range] loop of [Validate] keeps true of the issues collected
    and the keys seen. *)
Definition collected (m : gmap string string)
    (acc : list canonical.Issue * gset string) : Prop :=
  (∀ i, i ∈ acc.1 -> issueKey i ∈ acc.2)
  ∧ NoDup (issueKey <$> acc.1)
  ∧ (∀ i, i ∈ acc.1 ->
       canonical.issue_Type i = canonical.IssueLoopOrChain ->
       canonical.detectLoopOrChain (canonical.issue_PageURL i) m = Some (Some i)).

(** Every key seen is the key of an issue collected. *)
Definition seenCovered (acc : list canonical.Issue * gset string) : Prop :=
  ∀ k, k ∈ acc.2 -> ∃ j, j ∈ acc.1 ∧ issueKey j = k.

(** A tag whose href is blank once trimmed. *)
Definition blankHref (n : Node) : Prop :=
  strings_TrimSpace (AttrOr n "href" "") = "".

Section StatementNotions.
Context `{GoStd}.


(** The URL a callback reports a status for, and the status. *)
Definition outcome (cb : crawler.Callback) : option (string * Z) :=
  match cb with
  | crawler.OnHTML _ => None
  | crawler.OnResponse r =>
      match crawler.normalizeURL (crawler.resp_RequestURL r) with
      | Some (u, _) => Some (u, crawler.resp_StatusCode r)
      | None => None
      end
  | crawler.OnError (Some r) =>
      match crawler.err_RequestURL r ≫= crawler.normalizeURL with
      | Some (u, _) => Some (u, crawler.err_StatusCode r)
      | None => None
      end
  | crawler.OnError None => None
  end.

(** The normalized link of an anchor, as [onHTML] computes it. *)
Definition linkOf (e : crawler.HTMLElement) : option (string * URL) :=
  crawler.normalizeURL
    (crawler.elem_AbsoluteURL e (strings_TrimSpace (crawler.elem_href e))).

End StatementNotions.

(** A callback that reports a failure: a response outside 2xx/3xx, or an
    error. *)
Definition isFailure (cb : crawler.Callback) : bool :=
  match cb with
  | crawler.OnHTML _ => false
  | crawler.OnResponse r =>
      negb ((200 <=? crawler.resp_StatusCode r)
            && (crawler.resp_StatusCode r <? 400))
  | crawler.OnError _ => true
  end.

(** No URL is valid and broken at once. *)
Definition disjoint (st : crawler.CrawlState) : Prop :=
  ∀ u, u ∈ crawler.valid st -> crawler.broken st !! u = None.

(** *** Runs that differ in canonical tags only *)

(** The document without its canonical tags. *)
Definition withoutCanonical (doc : Document) : Document :=
  mkDocument (fun sel =>
    if String.eqb sel canonical.canonicalSelector then [] else Find doc sel).

Definition withoutCanonicalCallback (cb : crawler.Callback) : crawler.Callback :=
  match cb with
  | crawler.OnResponse r =>
      crawler.OnResponse
        (crawler.mkResponse (crawler.resp_RequestURL r) (crawler.resp_StatusCode r)
           (crawler.resp_Headers r) (withoutCanonical <$> crawler.resp_Document r))
  | _ => cb
  end.

(** The collector run in which no page served has a canonical tag. *)
Definition withoutCanonicalTags
    (collector : crawler.CollectorConfig -> string -> crawler.CollectorRun)
  : crawler.CollectorConfig -> string -> crawler.CollectorRun :=
  fun cfg start =>
    let run := collector cfg start in
    crawler.mkCollectorRun (crawler.run_LimitError run)
      (crawler.run_VisitError run)
      (withoutCanonicalCallback <$> crawler.run_Callbacks run).

(** ** Concrete pages and runs *)

Module sample.

Definition now : Time := mkTime 1700000000000000000 "Local".

Definition attrNode (name value : string) : Node :=
  mkNode (fun a => if String.eqb a name then Some value else None) "".

Definition textNode (text : string) : Node := mkNode (fun _ => None) text.

(** A document given by what its four selectors match. *)
Definition page (canonicals scripts articles ogs : list Node) : Document :=
  mkDocument (fun sel =>
    if String.eqb sel canonical.canonicalSelector then canonicals
    else if String.eqb sel lastmod.jsonldSelector then scripts
    else if String.eqb sel lastmod.articleSelector then articles
    else if String.eqb sel lastmod.ogSelector then ogs
    else []).

Definition opts (root : string) (patterns : list string) : crawler.Options :=
  crawler.mkOptions root 0 2 "" patterns 0.

(** The parsed root of the site [https://x/]. *)
Definition rootX : URL := mkURL "https" "" None "x" "/" "" false false "" "" "".

(** A run that invokes the given callbacks and reports no error. *)
Definition runOf (cbs : list crawler.Callback)
  : crawler.CollectorConfig -> string -> crawler.CollectorRun :=
  fun _ _ => crawler.mkCollectorRun None None cbs.

Definition served (url : string) (status : Z) (doc : Document)
  : crawler.Callback :=
  crawler.OnResponse (crawler.mkResponse url status None (Some doc)).

Definition anchor (href from : string) : crawler.Callback :=
  crawler.OnHTML (crawler.mkHTMLElement href from
    (fun raw => if strings_HasPrefix raw "/" then "https://x" +:+ raw else raw)).

Definition failed (url : string) (status : Z) : crawler.Callback :=
  crawler.OnError (Some (crawler.mkErrorResponse (Some url) status)).

(** A page whose canonical points to another host, and the same page
    without the tag. *)
Definition canonicalPage : Document :=
  page [attrNode "href" "https://other.com/"] [] [] [].

Definition plainPage : Document := page [] [] [] [].


(** A request that first fails and then succeeds. *)
Definition flappingRun : list crawler.Callback :=
  [ served "https://x/" 200 plainPage;
    anchor "/a" "https://x/";
    failed "https://x/a" 0;
    served "https://x/a" 200 plainPage ].

(** The root links to a page that answers 404 and to one that cannot be
    reached. *)
Definition brokenRun : list crawler.Callback :=
  [ served "https://x/" 200 plainPage;
    anchor "/broken" "https://x/";
    anchor "/down" "https://x/";
    failed "https://x/broken" 404;
    failed "https://x/down" 0 ].

(** The collector cannot start on the root: its host does not resolve. *)
Definition unreachableRun
  : crawler.CollectorConfig -> string -> crawler.CollectorRun :=
  fun _ _ => crawler.mkCollectorRun None (Some "no such host") [].

(** The pages of the extractor tests. *)
Definition twoCanonicals : Document :=
  page [attrNode "href" "https://example.com/a";
        attrNode "href" "https://example.com/b"] [] [] [].

Definition emptyThenRelative : Document :=
  page [attrNode "href" "  "; attrNode "href" " /services/seo/ "] [] [] [].

Definition emptyHref : Document := page [attrNode "href" ""] [] [] [].

Definition unresolvableHref : Document := page [attrNode "href" ":foo"] [] [] [].

(** A page with a JSON-LD date, both meta tags and, below, a header. *)
Definition jsonld (date : string) : Node :=
  textNode ("{" +:+ dq +:+ "dateModified" +:+ dq +:+ ":" +:+ dq +:+ date
            +:+ dq +:+ "}").

Definition datedPage : Document :=
  page [] [jsonld "2025-06-15"] [attrNode "content" "2024-01-02"]
    [attrNode "content" "2023-03-04"].




Definition day (date : string) : Time :=
  default now (plain.ParseTime "2006-01-02" date).

(** Two pages whose loop issues get the same key. *)
Definition collidingPages : gmap string string :=
  <[ "https://x/?a" := "https://x/?b|https://x/?c" ]>
  (<[ "https://x/?b|https://x/?c" := "https://x/" ]>
  (<[ "https://x/?a|https://x/?b" := "https://x/?c" ]>
  {[ "https://x/?c" := "https://x/" ]})).

End sample.

(** ** Notions used to state further properties *)

(** The path [normalizeURL] gives a URL whose parsed path is [path]. *)
Definition normalPath (path : string) : string :=
  if String.eqb path "" then "/"
  else if String.eqb path "/" then "/"
  else strings_TrimRight path "/".

(** *** The callbacks as effects on the crawl state *)

(** What a callback does to the state, whatever the state is. *)
Inductive Effect :=
| NoEffect
| CountExcluded
| Discover (link : string) (source : option string)
| MarkValid (u : string) (t : Time)
| MarkBroken (u : string) (status : Z) (seen : bool).

Definition applyEffect (eff : Effect) (st : crawler.CrawlState)
  : crawler.CrawlState :=
  match eff with
  | NoEffect => st
  | CountExcluded =>
      crawler.mkCrawlState (crawler.valid st) (crawler.broken st)
        (crawler.discovered st) (crawler.sources st) (crawler.lastModified st)
        (crawler.increment (crawler.excluded st))
  | Discover link source =>
      crawler.mkCrawlState (crawler.valid st) (crawler.broken st)
        ({[ link ]} ∪ crawler.discovered st)
        (match source with
         | Some s =>
             <[ link := {[ s ]} ∪ default ∅ (crawler.sources st !! link) ]>
               (crawler.sources st)
         | None => crawler.sources st
         end)
        (crawler.lastModified st) (crawler.excluded st)
  | MarkValid u t =>
      crawler.mkCrawlState ({[ u ]} ∪ crawler.valid st)
        (delete u (crawler.broken st)) ({[ u ]} ∪ crawler.discovered st)
        (crawler.sources st) (<[ u := t ]> (crawler.lastModified st))
        (crawler.excluded st)
  | MarkBroken u status seen =>
      crawler.mkCrawlState (crawler.valid st ∖ {[ u ]})
        (<[ u := status ]> (crawler.broken st))
        (if seen then {[ u ]} ∪ crawler.discovered st else crawler.discovered st)
        (crawler.sources st) (crawler.lastModified st) (crawler.excluded st)
  end.

(** The URL an effect sets the status of. *)
Definition statusURL (eff : Effect) : option string :=
  match eff with
  | MarkValid u _ | MarkBroken u _ _ => Some u
  | _ => None
  end.

Section FurtherNotions.
Context `{GoStd}.

(** The effect of a callback, read off the state it leaves when it runs
    first. *)
Definition effectOf (root : URL) (opts : crawler.Options) (now : Time)
    (cb : crawler.Callback) : Effect :=
  match cb with
  | crawler.OnHTML e =>
      match crawler.onHTML root opts crawler.initialState e with
      | (_, Some link) =>
          Discover link
            match crawler.normalizeURL (crawler.elem_RequestURL e) with
            | Some (sourceURL, _) => Some sourceURL
            | None => None
            end
      | (st, None) =>
          if crawler.excluded st =? 0 then NoEffect else CountExcluded
      end
  | crawler.OnResponse r =>
      match crawler.normalizeURL (crawler.resp_RequestURL r) with
      | Some (u, _) =>
          if (200 <=? crawler.resp_StatusCode r)
             && (crawler.resp_StatusCode r <? 400)
          then MarkValid u
                 (lastmod.GetLastModified (crawler.resp_Headers r)
                    (crawler.resp_Document r) now)
          else MarkBroken u (crawler.resp_StatusCode r) true
      | None => NoEffect
      end
  | crawler.OnError r =>
      match r with
      | Some r =>
          match crawler.err_RequestURL r with
          | Some requestURL =>
              match crawler.normalizeURL requestURL with
              | Some (u, _) => MarkBroken u (crawler.err_StatusCode r) false
              | None => NoEffect
              end
          | None => NoEffect
          end
      | None => NoEffect
      end
  end.

(** The URLs the callbacks of a run report a status for, in the order of the
    reports. *)
Definition reportedURLs (cbs : list crawler.Callback) : list string :=
  omap (fun cb => fst <$> outcome cb) cbs.

(** The link an [OnHTML] callback hands to [Visit]. *)
Definition handedToVisit (root : URL) (opts : crawler.Options)
    (e : crawler.HTMLElement) : option string :=
  (crawler.onHTML root opts crawler.initialState e).2.



(** The URL a callback enters into [discovered]: the link handed to [Visit],
    or the URL of a response. *)
Definition seenURL (root : URL) (opts : crawler.Options)
    (cb : crawler.Callback) : option string :=
  match cb with
  | crawler.OnHTML e => handedToVisit root opts e
  | crawler.OnResponse r => fst <$> outcome (crawler.OnResponse r)
  | crawler.OnError _ => None
  end.

End FurtherNotions.

(** The URL an effect enters into [discovered]. *)
Definition seenOf (eff : Effect) : option string :=
  match eff with
  | Discover link _ => Some link
  | MarkValid u _ => Some u
  | MarkBroken u _ true => Some u
  | _ => None
  end.

(** What every run keeps true of the state. *)
Definition consistent (st : crawler.CrawlState) : Prop :=
  crawler.valid st ⊆ crawler.discovered st
  ∧ (∀ u, u ∈ crawler.valid st -> is_Some (crawler.lastModified st !! u))
  ∧ (∀ u t, crawler.lastModified st !! u = Some t -> location t = "UTC").

(** *** How the canonical walk ends *)

(** The walk from [p] comes back to a page it has visited. *)
Definition walkCycles (m : gmap string string) (p : string) : Prop :=
  ∃ l, walkFrom m p l ∧ ¬ NoDup (p :: l).

(** The walk from [p] visits the pages of [l], all different, and ends: the
    last page declares no other page. *)
Definition walkEnds (m : gmap string string) (p : string) (l : list string)
  : Prop :=
  walkFrom m p l ∧ NoDup (p :: l) ∧ ∀ n, ¬ hop m (List.last l p) n.

(** *** JSON-LD blocks *)

(** The date one JSON-LD block yields. *)
Definition blockDate `{GoStd} (s : Node) : option Time :=
  lastmod.scanJSONLD [s].

(** The date under the key [dateModified] of an object itself. *)
Definition directDate `{GoStd} (obj : JMap) : option Time :=
  match JMap_get "dateModified" obj with
  | Some (JString s) => lastmod.parseTime s
  | _ => None
  end.

(** ** Properties *)

Import lastmod canonical crawler.

(** *** The canonical walk returns *)

Lemma walkChain_returns fuel m start target visited path current steps :
  Z.of_nat (size m) + 2 <= steps + Z.of_nat fuel -> (1 <= fuel)%nat ->
  ∃ r, walkChain fuel m start target visited path current steps = Some r.
Proof.
  revert visited path current steps.
  induction fuel as [|fuel IH]; intros visited path current steps Hb Hf; [lia|].
  simpl. destruct (m !! current) as [next|]; [|eauto].
  destruct (String.eqb next ""); [eauto|].
  destruct (visited !! current); [eauto|].
  destruct (String.eqb next current); [eauto|].
  destruct (Z.ltb_spec (Z.of_nat (size m) + 1) (steps + 1)); [eauto|].
  apply IH; lia.
Qed.

Lemma walkChain_more_fuel fuel extra m start target visited path current steps r :
  walkChain fuel m start target visited path current steps = Some r ->
  walkChain (fuel + extra) m start target visited path current steps = Some r.
Proof.
  revert visited path current steps.
  induction fuel as [|fuel IH]; intros visited path current steps Hr;
    [discriminate|].
  simpl in *. destruct (m !! current) as [next|]; [|done].
  destruct (String.eqb next ""); [done|].
  destruct (visited !! current); [done|].
  destruct (String.eqb next current); [done|].
  destruct (Z.of_nat (size m) + 1 <? steps + 1); [done|].
  by apply IH.
Qed.

(** Past the first hop every exit of the loop reports an issue. *)
Lemma walkChain_flags fuel m start target visited path current steps r :
  2 <= steps ->
  walkChain fuel m start target visited path current steps = Some r ->
  r = Some (chainIssue start target) ∨ r = Some (loopIssue start target).
Proof.
  revert visited path current steps.
  induction fuel as [|fuel IH]; intros visited path current steps Hs Hr;
    [discriminate|].
  simpl in Hr.
  assert (Hge : (2 <=? steps) = true) by (apply Z.leb_le; lia).
  rewrite Hge in Hr.
  destruct (m !! current) as [next|]; [|naive_solver].
  destruct (String.eqb next ""); [naive_solver|].
  destruct (visited !! current); [naive_solver|].
  destruct (String.eqb next current); [naive_solver|].
  destruct (Z.of_nat (size m) + 1 <? steps + 1); [naive_solver|].
  eapply IH; [|exact Hr]. lia.
Qed.

Lemma walkChain_issue fuel m start target visited path current steps i :
  walkChain fuel m start target visited path current steps = Some (Some i) ->
  i = chainIssue start target ∨ i = loopIssue start target.
Proof.
  revert visited path current steps.
  induction fuel as [|fuel IH]; intros visited path current steps Hr;
    [discriminate|].
  simpl in Hr. repeat case_match; simplify_eq; eauto.
Qed.

Lemma detectLoopOrChainFuel_returns (m : gmap string string) start :
  ∃ r, detectLoopOrChainFuel (S (size m)) start m = Some r.
Proof.
  unfold detectLoopOrChainFuel.
  destruct (m !! start) as [target|]; [|eauto].
  destruct (_ || _); [eauto|].
  apply walkChain_returns; lia.
Qed.

Lemma detectLoopOrChain_returns (m : gmap string string) start :
  ∃ r, detectLoopOrChain start m = Some r.
Proof. apply detectLoopOrChainFuel_returns. Qed.

Lemma detectLoopOrChain_issue m p i :
  detectLoopOrChain p m = Some (Some i) ->
  issue_Type i = IssueLoopOrChain ∧ issue_PageURL i = p.
Proof.
  unfold detectLoopOrChain, detectLoopOrChainFuel.
  destruct (m !! p) as [target|]; [|done]. destruct (_ || _); [done|].
  intros [-> | ->]%walkChain_issue; done.
Qed.

(** *** What the walk flags *)

Lemma flaggedBySpec_twoHops m p : flaggedBySpec m p ↔ twoHops m p.
Proof.
  split.
  - intros [_ [[l [Hw Hl]]|[l [Hw Hd]]]].
    + destruct Hw as [p|p t l1 H1 Hw1]; simpl in Hl; [lia|].
      destruct Hw1 as [t|t n l2 H2 Hw2]; simpl in Hl; [lia|].
      by exists t, n.
    + destruct Hw as [p|p t l1 H1 Hw1].
      { destruct Hd. apply NoDup_singleton. }
      destruct Hw1 as [t|t n l2 H2 Hw2].
      { destruct Hd. destruct H1 as [_ Hne].
        apply NoDup_cons. split; [|apply NoDup_singleton].
        intros Hin%list_elem_of_singleton. congruence. }
      by exists t, n.
  - intros (t & n & H1 & H2). split.
    + exists t. exact H1.
    + left. exists [t; n]. split; [|simpl; lia].
      apply walk_hop; [done|]. apply walk_hop; [done|]. apply walk_stop.
Qed.

Lemma size_pos_lookup (m : gmap string string) p t :
  m !! p = Some t -> (1 <= size m)%nat.
Proof.
  intros Hp. destruct (decide (size m = 0%nat)) as [Hz|]; [|lia].
  apply map_size_empty_iff in Hz. subst. by rewrite lookup_empty in Hp.
Qed.

Lemma detectLoopOrChain_twoHops m p :
  (∃ i, detectLoopOrChain p m = Some (Some i)) ↔ twoHops m p.
Proof.
  unfold detectLoopOrChain, detectLoopOrChainFuel, twoHops, hop, declared.
  destruct (m !! p) as [target|] eqn:Hp.
  2:{ split; [intros [i Hi]; discriminate|].
      intros (t & n & [Ht _] & _). discriminate. }
  destruct (String.eqb_spec target "") as [->|Hne0]; simpl.
  { split; [intros [i Hi]; discriminate|].
    intros (t & n & [Ht _] & _). discriminate. }
  destruct (String.eqb_spec target p) as [->|Hnep].
  { split; [intros [i Hi]; discriminate|].
    intros (t & n & [Ht Hne] & _). simplify_eq. }
  destruct (m !! target) as [next|] eqn:Ht.
  2:{ split; [intros [i Hi]; discriminate|].
      intros (t & n & [Ht' _] & [Hn _]). simplify_eq.
      rewrite Ht in Hn. discriminate. }
  destruct (String.eqb_spec next "") as [->|Hnx0].
  { split; [intros [i Hi]; discriminate|].
    intros (t & n & [Ht' _] & [Hn _]). simplify_eq.
    rewrite Ht in Hn. discriminate. }
  rewrite lookup_singleton_ne by done.
  destruct (String.eqb_spec next target) as [->|Hnxt].
  { split; [intros [i Hi]; discriminate|].
    intros (t & n & [Ht' _] & [Hn Hne]). simplify_eq. rewrite Ht in Hn.
    destruct (String.eqb_spec t ""); simplify_eq. }
  split.
  - intros _. exists target, next. repeat split; try done.
    rewrite Ht. by destruct (String.eqb_spec next "").
  - intros _.
    destruct (Z.of_nat (size m) + 1 <? 1 + 1); [eauto|].
    pose proof (size_pos_lookup _ _ _ Hp).
    edestruct (walkChain_returns (size m) m p target) as [r Hr]; [..|rewrite Hr].
    3:{ apply walkChain_flags in Hr as [->| ->]; [eauto|eauto|lia]. }
    + lia.
    + lia.
Qed.

(** The loop flags a page exactly when the specification's walk does. *)
Lemma detectLoopOrChain_spec m p :
  (∃ i, detectLoopOrChain p m = Some (Some i)) ↔ flaggedBySpec m p.
Proof. by rewrite detectLoopOrChain_twoHops, flaggedBySpec_twoHops. Qed.

(** A page that is its own canonical is not flagged. *)
Lemma detectLoopOrChain_self m p :
  m !! p = Some p -> detectLoopOrChain p m = Some None.
Proof.
  intros Hp. unfold detectLoopOrChain, detectLoopOrChainFuel. rewrite Hp.
  by rewrite String.eqb_refl, orb_true_r.
Qed.

Lemma NoDup_fmap_eq {A B} (f : A -> B) (l : list A) x y :
  NoDup (f <$> l) -> x ∈ l -> y ∈ l -> f x = f y -> x = y.
Proof.
  induction l as [|a l IH]; simpl; [by intros _ ?%elem_of_nil|].
  rewrite NoDup_cons. intros [Ha Hl] Hx Hy Hf.
  apply elem_of_cons in Hx as [->|Hx]; apply elem_of_cons in Hy as [->|Hy];
    try done.
  - destruct Ha. rewrite Hf. by apply list_elem_of_fmap_2.
  - destruct Ha. rewrite <- Hf. by apply list_elem_of_fmap_2.
  - by apply IH.
Qed.

Section ValidateProofs.
Context `{GoStd}.

Lemma validatePair_type page target st i :
  validatePair page target st = Some i -> issue_Type i ≠ IssueLoopOrChain.
Proof.
  unfold validatePair. repeat case_match; try done; by intros [= <-].
Qed.

Lemma collected_add m issues seen i :
  collected m (issues, seen) -> issueKey i ∉ seen ->
  (issue_Type i = IssueLoopOrChain ->
   detectLoopOrChain (issue_PageURL i) m = Some (Some i)) ->
  collected m (issues ++ [i], {[ issueKey i ]} ∪ seen).
Proof.
  intros (Hk & Hnd & Hd) Hnew Hi. unfold collected. cbn [fst snd] in *.
  split; [|split].
  - intros j [Hj|Hj%list_elem_of_singleton]%elem_of_app.
    + apply elem_of_union_r. by apply Hk.
    + subst j. by apply elem_of_union_l, elem_of_singleton.
  - rewrite fmap_app. apply NoDup_app. split; [done|]. split.
    + intros k [j [-> Hj]]%list_elem_of_fmap Hk'%list_elem_of_singleton.
      apply Hnew. rewrite <- Hk'. by apply Hk.
    + apply NoDup_singleton.
  - intros j [Hj|Hj%list_elem_of_singleton]%elem_of_app; [by apply Hd|].
    by subst j.
Qed.

Lemma validatePage_collected m st acc page target acc' :
  collected m acc ->
  validatePage m st acc page target = Some acc' -> collected m acc'.
Proof.
  destruct acc as [issues seen]. unfold validatePage. intros Hc.
  assert (Hc1 : collected m
            (match validatePair page target st with
             | Some issue =>
                 if decide (pairKey issue ∈ seen) then (issues, seen)
                 else (issues ++ [issue], {[ pairKey issue ]} ∪ seen)
             | None => (issues, seen)
             end)).
  { destruct (validatePair page target st) as [i|] eqn:Hp; [|done].
    apply validatePair_type in Hp.
    assert (Hkey : issueKey i = pairKey i).
    { unfold issueKey. by apply String.eqb_neq in Hp as ->. }
    case_decide; [done|].
    rewrite <- Hkey. apply collected_add; [done|congruence|done]. }
  destruct (match validatePair page target st with Some _ => _ | None => _ end)
    as [issues1 seen1].
  destruct (detectLoopOrChain page m) as [[i|]|] eqn:Hd;
    [|by intros [= <-]|done].
  pose proof (detectLoopOrChain_issue _ _ _ Hd) as [Hty Hpg].
  assert (Hkey : issueKey i = chainKey i).
  { unfold issueKey. rewrite Hty. done. }
  case_decide; intros [= <-]; [done|].
  rewrite <- Hkey. apply collected_add; [done|congruence|].
  intros _. by rewrite Hpg.
Qed.

Lemma validatePages_collected m st entries acc acc' :
  collected m acc ->
  validatePages m st acc entries = Some acc' -> collected m acc'.
Proof.
  revert acc.
  induction entries as [|[page target] entries IH]; intros acc Hc; simpl.
  - by intros [= <-].
  - destruct (validatePage m st acc page target) as [acc1|] eqn:H1; [|done].
    apply IH. by eapply validatePage_collected.
Qed.

Lemma validatePages_returns m st entries acc :
  ∃ acc', validatePages m st acc entries = Some acc'.
Proof.
  revert acc.
  induction entries as [|[page target] entries IH]; intros acc; simpl; [eauto|].
  assert (∃ acc1, validatePage m st acc page target = Some acc1) as [acc1 ->];
    [|apply IH].
  unfold validatePage. destruct acc as [issues seen].
  destruct (match validatePair page target st with Some _ => _ | None => _ end).
  destruct (detectLoopOrChain_returns m page) as [[i|] ->]; [|eauto].
  case_decide; eauto.
Qed.

Lemma ValidateIn_returns entries m st :
  ∃ issues, ValidateIn entries m st = Some issues.
Proof.
  unfold ValidateIn.
  destruct (validatePages_returns m st entries ([], ∅)) as [[issues seen] ->].
  eauto.
Qed.

(** The issues returned have distinct keys, and each loop issue is what the
    walk from its page reports. *)
Lemma ValidateIn_collected entries m st issues :
  ValidateIn entries m st = Some issues ->
  NoDup (issueKey <$> issues)
  ∧ (∀ i, i ∈ issues -> issue_Type i = IssueLoopOrChain ->
       detectLoopOrChain (issue_PageURL i) m = Some (Some i)).
Proof.
  unfold ValidateIn.
  destruct (validatePages m st ([], ∅) entries) as [[issues0 seen]|] eqn:Hv;
    [|done].
  intros [= <-]. apply validatePages_collected in Hv as (_ & Hnd & Hd).
  2:{ split; [|split]; cbn [fst snd];
        [by intros ? ?%elem_of_nil|constructor|by intros ? ?%elem_of_nil]. }
  cbn [fst snd] in *. split.
  - by rewrite merge_sort_Permutation.
  - intros i Hi. rewrite merge_sort_Permutation in Hi. by apply Hd.
Qed.

(** Whatever page [Validate] reports a loop_or_chain issue for is flagged by
    the specification's walk. *)
Lemma ValidateIn_reports_flagged entries m st issues p :
  ValidateIn entries m st = Some issues ->
  reportsLoop issues p -> flaggedBySpec m p.
Proof.
  intros [_ Hd]%ValidateIn_collected (i & Hi & Hty & <-).
  apply detectLoopOrChain_spec. exists i. by apply Hd.
Qed.

Lemma seenCovered_add issues seen i :
  seenCovered (issues, seen) ->
  seenCovered (issues ++ [i], {[ issueKey i ]} ∪ seen).
Proof.
  intros Hc k. cbn [fst snd]. rewrite elem_of_union, elem_of_singleton.
  intros [->|Hk].
  - exists i. split; [|done]. apply elem_of_app. right. by apply list_elem_of_singleton.
  - destruct (Hc k Hk) as (j & Hj & Hkey). exists j. split; [|done].
    apply elem_of_app. by left.
Qed.

Lemma validatePage_seen m st acc page target acc' :
  seenCovered acc ->
  validatePage m st acc page target = Some acc' ->
  seenCovered acc' ∧ acc.2 ⊆ acc'.2
  ∧ ∀ i, detectLoopOrChain page m = Some (Some i) -> issueKey i ∈ acc'.2.
Proof.
  destruct acc as [issues seen]. unfold validatePage. intros Hc.
  assert (Hc1 : let acc1 :=
            match validatePair page target st with
            | Some issue =>
                if decide (pairKey issue ∈ seen) then (issues, seen)
                else (issues ++ [issue], {[ pairKey issue ]} ∪ seen)
            | None => (issues, seen)
            end in seenCovered acc1 ∧ seen ⊆ acc1.2).
  { destruct (validatePair page target st) as [i|] eqn:Hp; [|done].
    apply validatePair_type in Hp.
    assert (Hkey : issueKey i = pairKey i).
    { unfold issueKey. by apply String.eqb_neq in Hp as ->. }
    case_decide; [done|]. rewrite <- Hkey. split; [by apply seenCovered_add|].
    cbn [snd]. apply union_subseteq_r. }
  destruct (match validatePair page target st with Some _ => _ | None => _ end)
    as [issues1 seen1].
  destruct Hc1 as [Hc1 Hsub]. cbn [fst snd] in *.
  destruct (detectLoopOrChain page m) as [[i|]|] eqn:Hd; [| |done].
  - pose proof (detectLoopOrChain_issue _ _ _ Hd) as [Hty Hpg].
    assert (Hkey : issueKey i = chainKey i).
    { unfold issueKey. rewrite Hty. done. }
    rewrite <- Hkey. case_decide; intros [= <-]; cbn [fst snd].
    + split; [done|]. split; [done|]. by intros ? [= <-].
    + split; [by apply seenCovered_add|]. split.
      * etrans; [exact Hsub|]. apply union_subseteq_r.
      * intros ? [= <-]. by apply elem_of_union_l, elem_of_singleton.
  - intros [= <-]. split; [done|]. split; [done|]. by intros ? [=].
Qed.

Lemma validatePages_seen m st entries acc acc' :
  seenCovered acc ->
  validatePages m st acc entries = Some acc' ->
  seenCovered acc' ∧ acc.2 ⊆ acc'.2
  ∧ ∀ page target i, (page, target) ∈ entries ->
      detectLoopOrChain page m = Some (Some i) -> issueKey i ∈ acc'.2.
Proof.
  revert acc.
  induction entries as [|[page target] entries IH]; intros acc Hc; simpl.
  - intros [= <-]. split; [done|]. split; [done|].
    by intros ? ? ? ?%elem_of_nil.
  - destruct (validatePage m st acc page target) as [acc1|] eqn:H1; [|done].
    intros Hrest.
    destruct (validatePage_seen _ _ _ _ _ _ Hc H1) as (Hc1 & Hsub1 & Hkey1).
    destruct (IH _ Hc1 Hrest) as (Hc' & Hsub' & Hkeys).
    split; [done|]. split; [by etrans|].
    intros page' target' i [[= -> ->]|Hin]%elem_of_cons Hd.
    + apply Hsub'. by apply Hkey1.
    + by eapply Hkeys.
Qed.

(** For every page visited that the walk flags, [Validate] returns an issue
    with the key of the page's issue. *)
Lemma ValidateIn_reports_key entries m st issues page target i :
  ValidateIn entries m st = Some issues ->
  (page, target) ∈ entries ->
  detectLoopOrChain page m = Some (Some i) ->
  ∃ j, j ∈ issues ∧ issueKey j = issueKey i.
Proof.
  unfold ValidateIn.
  destruct (validatePages m st ([], ∅) entries) as [[issues0 seen]|] eqn:Hv;
    [|done].
  intros [= <-] Hin Hd.
  apply validatePages_seen in Hv as (Hc & _ & Hkeys).
  2:{ intros k Hk. cbn [snd] in Hk. by apply not_elem_of_empty in Hk. }
  destruct (Hc _ (Hkeys _ _ _ Hin Hd)) as (j & Hj & Hkey).
  exists j. split; [|done]. by rewrite merge_sort_Permutation.
Qed.
End ValidateProofs.

(** C6: the canonical-chain walk terminates on every map: for any
    [canonicalByPage] and any start page the loop of [detectLoopOrChain] has
    returned after at most [size + 1] iterations, more fuel changes nothing,
    and hence [Validate] returns for every order in which the map is
    visited. *)
Theorem detectLoopOrChain_returns_within_bound (m : gmap string string) :
  (∀ start, ∃ r, ∀ extra,
     detectLoopOrChainFuel (S (size m) + extra) start m = Some r)
  ∧ (∀ (std : GoStd) entries st, ∃ issues, ValidateIn entries m st = Some issues).
Proof.
  split.
  - intros start. destruct (detectLoopOrChainFuel_returns m start) as [r Hr].
    exists r. intros extra. revert Hr. unfold detectLoopOrChainFuel.
    destruct (m !! start) as [target|]; [|done].
    destruct (_ || _); [done|]. apply walkChain_more_fuel.
  - intros std entries st. apply ValidateIn_returns.
Qed.

(** The two maps of the specification and the self-canonical page. *)
Example Validate_chain :
  @Validate plainStd
    (<[ "https://x/a" := "https://x/b" ]> {[ "https://x/b" := "https://x/c" ]})
    (<[ "https://x/b" := 200 ]> {[ "https://x/c" := 200 ]})
  = Some [chainIssue "https://x/a" "https://x/b"].
Proof. vm_compute. reflexivity. Qed.

Example Validate_loop :
  @Validate plainStd
    (<[ "https://x/a" := "https://x/b" ]> {[ "https://x/b" := "https://x/a" ]})
    (<[ "https://x/a" := 200 ]> {[ "https://x/b" := 200 ]})
  = Some [loopIssue "https://x/a" "https://x/b";
          loopIssue "https://x/b" "https://x/a"].
Proof. vm_compute. reflexivity. Qed.

Example Validate_self :
  @Validate plainStd {[ "https://x/p" := "https://x/p" ]}
    {[ "https://x/p" := 200 ]} = Some [].
Proof. vm_compute. reflexivity. Qed.

(** C5: the loop of [detectLoopOrChain] flags a page exactly when the
    specification's walk does (the canonical differs from the page and the
    walk reaches two hops or revisits a page); [Validate] reports a
    loop_or_chain issue only for such pages, and for each of them visited it
    returns an issue with the key of that page's issue.  Where the code
    departs from the claim: the key is the text [type|page|canonical|detail],
    the two flagged pages of [collidingPages] get the same key, and whatever
    the order in which [Validate] visits the map it reports the issue of one
    of them only. *)
Theorem Validate_drops_a_flagged_page_on_equal_keys (std : GoStd) :
  (∀ m p, (∃ i, detectLoopOrChain p m = Some (Some i)) ↔ flaggedBySpec m p)
  ∧ (∀ entries m st issues p,
       ValidateIn entries m st = Some issues ->
       reportsLoop issues p -> flaggedBySpec m p)
  ∧ (∀ entries m st issues p t i,
       ValidateIn entries m st = Some issues ->
       (p, t) ∈ entries ->
       detectLoopOrChain p m = Some (Some i) ->
       ∃ j, j ∈ issues ∧ issueKey j = issueKey i)
  ∧ (∀ entries st,
       flaggedBySpec sample.collidingPages "https://x/?a"
       ∧ flaggedBySpec sample.collidingPages "https://x/?a|https://x/?b"
       ∧ chainKey (chainIssue "https://x/?a" "https://x/?b|https://x/?c")
         = chainKey (chainIssue "https://x/?a|https://x/?b" "https://x/?c")
       ∧ ∃ issues, ValidateIn entries sample.collidingPages st = Some issues
           ∧ ¬ (reportsLoop issues "https://x/?a"
                ∧ reportsLoop issues "https://x/?a|https://x/?b")).
Proof.
  split; [apply detectLoopOrChain_spec|].
  split; [intros entries m st issues p; apply ValidateIn_reports_flagged|].
  split; [intros entries m st issues p t i; apply ValidateIn_reports_key|].
  intros entries st. split; [|split; [|split]].
  - apply detectLoopOrChain_spec. eexists. vm_compute. reflexivity.
  - apply detectLoopOrChain_spec. eexists. vm_compute. reflexivity.
  - reflexivity.
  - destruct (ValidateIn_returns entries sample.collidingPages st) as [issues Hv].
    exists issues. split; [done|].
    apply ValidateIn_collected in Hv as [Hnd Hd].
    intros [(i1 & Hi1 & Ht1 & Hp1) (i2 & Hi2 & Ht2 & Hp2)].
    pose proof (Hd i1 Hi1 Ht1) as Hd1. pose proof (Hd i2 Hi2 Ht2) as Hd2.
    rewrite Hp1 in Hd1. rewrite Hp2 in Hd2.
    vm_compute in Hd1. vm_compute in Hd2.
    injection Hd1 as <-. injection Hd2 as <-.
    assert (Heq := NoDup_fmap_eq issueKey issues _ _ Hnd Hi1 Hi2 eq_refl).
    discriminate Heq.
Qed.

(** On the chain of the specification, [a] declares [b] and [b] declares
    [c]: the issue [Validate] returns for [a] shows that the walk flags [a]. *)
Lemma Validate_drops_a_flagged_page_on_equal_keys_witness :
  flaggedBySpec
    (<[ "https://x/a" := "https://x/b" ]> {[ "https://x/b" := "https://x/c" ]})
    "https://x/a".
Proof.
  destruct (Validate_drops_a_flagged_page_on_equal_keys plainStd)
    as (_ & Hsound & _).
  eapply (Hsound
            (map_to_list (<[ "https://x/a" := "https://x/b" ]>
                            {[ "https://x/b" := "https://x/c" ]}))
            _ (<[ "https://x/b" := 200 ]> {[ "https://x/c" := 200 ]})
            [chainIssue "https://x/a" "https://x/b"]).
  - vm_compute. reflexivity.
  - exists (chainIssue "https://x/a" "https://x/b").
    split; [by apply list_elem_of_singleton|]. split; reflexivity.
Defined.

(** *** Last-modified extraction *)

Section LastModified.
Context `{GoStd}.



End LastModified.


(** *** Canonical extraction *)

Section Extraction.
Context `{GoStd}.

Lemma firstHref_blank links : Forall blankHref links -> firstHref links = "".
Proof.
  induction 1 as [|n links Hn _ IH]; simpl; [done|].
  unfold blankHref in Hn. by rewrite Hn.
Qed.

Lemma firstHref_first before n after :
  Forall blankHref before -> ¬ blankHref n ->
  firstHref (before ++ n :: after) = strings_TrimSpace (AttrOr n "href" "").
Proof.
  intros Hb Hn. induction Hb as [|x before Hx _ IH]; simpl.
  - unfold blankHref in Hn. by apply String.eqb_neq in Hn as ->.
  - unfold blankHref in Hx. by rewrite Hx.
Qed.

(** C8: [Extract] on a nil document or a page without canonical tags
    returns Missing with TagCount 0; TagCount counts every tag, also those
    with an empty href; with two or more tags Multiple is set; the first
    tag in document order whose href is not blank is the reported canonical,
    resolved against the page; when no tag has a usable href the result is
    Missing; and when the winning href cannot be resolved it is kept as
    CanonicalURL as it is. *)
Theorem Extract_reports_first_usable_href pageURL :
  Extract pageURL None = mkInfo pageURL "" 0 true false
  ∧ ∀ doc,
      let links := Find doc canonicalSelector in
      let info := Extract pageURL (Some doc) in
      PageURL info = pageURL
      ∧ TagCount info = Z.of_nat (length links)
      ∧ (links = [] -> info = mkInfo pageURL "" 0 true false)
      ∧ ((2 <= length links)%nat -> Multiple info = true)
      ∧ (Forall blankHref links -> Missing info = true ∧ CanonicalURL info = "")
      ∧ (∀ before n after,
           links = before ++ n :: after ->
           Forall blankHref before -> ¬ blankHref n ->
           let href := strings_TrimSpace (AttrOr n "href" "") in
           Missing info = false
           ∧ (∀ resolved, resolveAgainstPage pageURL href = Some resolved ->
                CanonicalURL info = resolved)
           ∧ (resolveAgainstPage pageURL href = None ->
              CanonicalURL info = href)).
Proof.
  split; [done|]. intros doc links info. subst info. unfold Extract. fold links.
  destruct links as [|l0 links'] eqn:Hlinks.
  { simpl. split; [done|]. split; [done|]. split; [done|].
    split; [simpl; lia|]. split; [done|].
    intros before n after Hl. by destruct before. }
  rewrite <- Hlinks.
  assert (Hz : (Z.of_nat (length links) =? 0) = false).
  { apply Z.eqb_neq. rewrite Hlinks. simpl. lia. }
  rewrite Hz.
  split; [by repeat case_match|]. split; [by repeat case_match|].
  split; [by rewrite Hlinks|]. split; [|split].
  - intros Hlen.
    assert ((1 <? Z.of_nat (length links)) = true) as Hm
      by (apply Z.ltb_lt; lia).
    rewrite Hm. by repeat case_match.
  - intros Hblank. by rewrite (firstHref_blank _ Hblank).
  - intros before n after Hl Hb Hn.
    set (href := strings_TrimSpace (AttrOr n "href" "")).
    assert (Hf : firstHref links = href)
      by (rewrite Hl; by apply firstHref_first).
    rewrite Hf.
    assert (String.eqb href "" = false) as -> by (by apply String.eqb_neq).
    destruct (resolveAgainstPage pageURL href) as [resolved|]; simpl.
    + split; [done|]. split; [by intros ? [= <-]|done].
    + done.
Qed.

End Extraction.

(** The pages of the extractor's tests: two tags, a blank href before a
    relative one, an empty href alone, and an href that does not parse. *)
Lemma Extract_reports_first_usable_href_witness :
  Multiple (@Extract plainStd "https://example.com/page" (Some sample.twoCanonicals))
  = true
  ∧ CanonicalURL
      (@Extract plainStd "https://example.com/page" (Some sample.twoCanonicals))
    = "https://example.com/a"
  ∧ CanonicalURL
      (@Extract plainStd "https://example.com/page" (Some sample.emptyThenRelative))
    = "https://example.com/services/seo"
  ∧ Missing (@Extract plainStd "https://example.com/page" (Some sample.emptyHref))
    = true
  ∧ TagCount (@Extract plainStd "https://example.com/page" (Some sample.emptyHref))
    = 1
  ∧ CanonicalURL
      (@Extract plainStd "https://example.com/page" (Some sample.unresolvableHref))
    = ":foo".
Proof.
  pose proof (@Extract_reports_first_usable_href plainStd
                "https://example.com/page") as [_ Hdoc].
  split; [|split; [|split; [|split; [|split]]]].
  - destruct (Hdoc sample.twoCanonicals) as (_ & _ & _ & Hmany & _).
    apply Hmany. simpl. lia.
  - destruct (Hdoc sample.twoCanonicals) as (_ & _ & _ & _ & _ & Hfirst).
    destruct (Hfirst [] (sample.attrNode "href" "https://example.com/a")
                [sample.attrNode "href" "https://example.com/b"])
      as (_ & Hres & _).
    + reflexivity.
    + constructor.
    + discriminate.
    + apply Hres. reflexivity.
  - destruct (Hdoc sample.emptyThenRelative) as (_ & _ & _ & _ & _ & Hfirst).
    destruct (Hfirst [sample.attrNode "href" "  "]
                (sample.attrNode "href" " /services/seo/ ") [])
      as (_ & Hres & _).
    + reflexivity.
    + repeat constructor.
    + discriminate.
    + apply Hres. reflexivity.
  - destruct (Hdoc sample.emptyHref) as (_ & _ & _ & _ & Hblank & _).
    apply Hblank. repeat constructor.
  - destruct (Hdoc sample.emptyHref) as (_ & Hcount & _). exact Hcount.
  - destruct (Hdoc sample.unresolvableHref) as (_ & _ & _ & _ & _ & Hfirst).
    destruct (Hfirst [] (sample.attrNode "href" ":foo") []) as (_ & _ & Hraw).
    + reflexivity.
    + constructor.
    + discriminate.
    + apply Hraw. reflexivity.
Defined.

(** *** The crawl state *)

Section CrawlState.
Context `{GoStd}.

Lemma onHTML_valid_broken root opts st e :
  valid (onHTML root opts st e).1 = valid st
  ∧ broken (onHTML root opts st e).1 = broken st.
Proof. unfold onHTML. repeat (case_match; simpl; try done). Qed.

Lemma disjoint_success st l lm d :
  disjoint st ->
  disjoint (mkCrawlState ({[ l ]} ∪ valid st) (delete l (broken st)) d
              (sources st) lm (excluded st)).
Proof.
  intros Hd u. simpl. rewrite elem_of_union, elem_of_singleton.
  intros [->|Hu]; [apply lookup_delete_eq|].
  rewrite lookup_delete. case_decide; [done|]. by apply Hd.
Qed.

Lemma disjoint_failure st l s d :
  disjoint st ->
  disjoint (mkCrawlState (valid st ∖ {[ l ]}) (<[ l := s ]> (broken st)) d
              (sources st) (lastModified st) (excluded st)).
Proof.
  intros Hd u. simpl. rewrite elem_of_difference, elem_of_singleton.
  intros [Hu Hne]. rewrite lookup_insert_ne by done. by apply Hd.
Qed.

Lemma handle_disjoint root opts now st cb :
  disjoint st -> disjoint (handle root opts now st cb).
Proof.
  intros Hd. destruct cb as [e|r|r]; simpl.
  - intros u. destruct (onHTML_valid_broken root opts st e) as [-> ->]. apply Hd.
  - unfold onResponse. destruct (normalizeURL _) as [[l ?]|]; [|done].
    destruct (_ && _); [by apply disjoint_success|by apply disjoint_failure].
  - unfold onError. destruct r as [r|]; [|done].
    destruct (err_RequestURL r); [|done].
    destruct (normalizeURL _) as [[l ?]|]; [|done].
    by apply disjoint_failure.
Qed.

Lemma foldl_handle_disjoint root opts now cbs st :
  disjoint st -> disjoint (foldl (handle root opts now) st cbs).
Proof.
  revert st. induction cbs as [|cb cbs IH]; intros st Hd; simpl; [done|].
  apply IH. by apply handle_disjoint.
Qed.

Lemma runCallbacks_disjoint root opts now cbs :
  disjoint (runCallbacks root opts now cbs).
Proof.
  apply foldl_handle_disjoint. intros u Hu. simpl in Hu.
  by apply not_elem_of_empty in Hu.
Qed.

(** *** The assembled result *)

Lemma elem_of_ValidURLs opts st u :
  u ∈ ValidURLs (assemble opts st)
  ↔ u ∈ valid st ∧ shouldExclude u (ExcludePatterns opts) = false.
Proof.
  unfold assemble. simpl. rewrite merge_sort_Permutation.
  rewrite list_elem_of_filter, elem_of_elements. tauto.
Qed.

Lemma lookup_BrokenLinks opts st u s :
  BrokenLinks (assemble opts st) !! u = Some s
  ↔ broken st !! u = Some s ∧ shouldExclude u (ExcludePatterns opts) = false.
Proof. unfold assemble. simpl. by rewrite map_lookup_filter_Some. Qed.

Lemma elem_of_BrokenLinkTasks opts st t :
  t ∈ BrokenLinkTasks (assemble opts st)
  ↔ ∃ s, BrokenLinks (assemble opts st) !! task_URL t = Some s
         ∧ t = brokenTask (sources st) (task_URL t, s).
Proof.
  unfold assemble. simpl. rewrite merge_sort_Permutation, list_elem_of_fmap.
  split.
  - intros [[u s] [-> Hin]]. apply elem_of_map_to_list in Hin. by exists s.
  - intros [s [Hs Ht]]. exists (task_URL t, s). split; [done|].
    by apply elem_of_map_to_list.
Qed.

Lemma withDefaults_patterns opts :
  ExcludePatterns (withDefaults opts) = ExcludePatterns opts.
Proof. unfold withDefaults. by repeat case_match. Qed.

(** What [Crawl] returns once the root is accepted. *)
Lemma Crawl_unfold collector now opts start root :
  normalizeRoot (RootURL opts) = inr (start, root) ->
  let run := collector (collectorConfig (withDefaults opts) root) start in
  Crawl collector now opts =
    match run_LimitError run with
    | Some cause => inl (ConfigureCrawlerConcurrency cause)
    | None =>
        match run_VisitError run with
        | Some cause => inl (StartCrawling cause)
        | None =>
            inr (assemble (withDefaults opts)
                   (runCallbacks root (withDefaults opts) now (run_Callbacks run)))
        end
    end.
Proof. intros Hroot. unfold Crawl. by rewrite Hroot. Qed.

Lemma Crawl_inr collector now opts r :
  Crawl collector now opts = inr r ->
  ∃ root cbs, r = assemble (withDefaults opts)
                    (runCallbacks root (withDefaults opts) now cbs).
Proof.
  unfold Crawl. destruct (normalizeRoot _) as [?|[start root]]; [done|].
  simpl. repeat case_match; try done. intros [= <-]. by eexists _, _.
Qed.

(** C3: at every point of a crawl, that is after any sequence of
    callbacks, and in the final [Result], no URL is both valid and broken: a
    success response for [u] puts [u] into valid and removes it from broken,
    a failure puts [u] into broken with its status and removes it from
    valid, so the latest observed status wins. *)
Theorem valid_and_broken_stay_disjoint :
  (∀ root opts now cbs u,
     u ∈ valid (runCallbacks root opts now cbs) ->
     broken (runCallbacks root opts now cbs) !! u = None)
  ∧ (∀ collector now opts r u,
       Crawl collector now opts = inr r ->
       u ∈ ValidURLs r -> BrokenLinks r !! u = None)
  ∧ (∀ now st r u parsed,
       normalizeURL (resp_RequestURL r) = Some (u, parsed) ->
       let st' := onResponse now st r in
       (200 <= resp_StatusCode r < 400 ->
        u ∈ valid st' ∧ broken st' !! u = None)
       ∧ (¬ 200 <= resp_StatusCode r < 400 ->
          broken st' !! u = Some (resp_StatusCode r) ∧ u ∉ valid st'))
  ∧ (∀ st r requestURL u parsed,
       err_RequestURL r = Some requestURL ->
       normalizeURL requestURL = Some (u, parsed) ->
       let st' := onError st (Some r) in
       broken st' !! u = Some (err_StatusCode r) ∧ u ∉ valid st').
Proof.
  split; [|split; [|split]].
  - intros root opts now cbs. apply runCallbacks_disjoint.
  - intros collector now opts r u Hr Hu.
    apply Crawl_inr in Hr as (root & cbs & ->).
    apply elem_of_ValidURLs in Hu as [Hu _].
    apply (runCallbacks_disjoint root) in Hu.
    destruct (BrokenLinks _ !! u) as [s|] eqn:Hs; [|done].
    apply lookup_BrokenLinks in Hs as [Hs _]. congruence.
  - intros now st r u parsed Hn. unfold onResponse. rewrite Hn. split.
    + intros [Hlo Hhi]. apply Z.leb_le in Hlo. apply Z.ltb_lt in Hhi.
      rewrite Hlo, Hhi. simpl.
      split; [by apply elem_of_union_l, elem_of_singleton|apply lookup_delete_eq].
    + intros Hnot.
      assert ((200 <=? resp_StatusCode r) && (resp_StatusCode r <? 400) = false)
        as -> by (apply andb_false_iff; rewrite Z.leb_gt, Z.ltb_ge; lia).
      simpl. split; [apply lookup_insert_eq|].
      rewrite not_elem_of_difference. right. by apply elem_of_singleton.
  - intros st r requestURL u parsed Hr Hn. unfold onError. rewrite Hr, Hn. simpl.
    split; [apply lookup_insert_eq|].
    rewrite not_elem_of_difference. right. by apply elem_of_singleton.
Qed.

(** C10: exclusion patterns are applied again when the result is
    assembled: for every completed crawl a URL that matches an exclusion
    pattern is in none of ValidURLs, BrokenLinks and BrokenLinkTasks, also
    when it was fetched. *)
Theorem excluded_urls_are_not_reported collector now opts r u :
  Crawl collector now opts = inr r ->
  shouldExclude u (ExcludePatterns opts) = true ->
  (u ∉ ValidURLs r)
  ∧ BrokenLinks r !! u = None
  ∧ (∀ t, t ∈ BrokenLinkTasks r -> task_URL t ≠ u).
Proof.
  intros Hr Hx. apply Crawl_inr in Hr as (root & cbs & ->).
  rewrite <- withDefaults_patterns in Hx.
  assert (Hb : BrokenLinks (assemble (withDefaults opts)
                 (runCallbacks root (withDefaults opts) now cbs)) !! u = None).
  { destruct (BrokenLinks _ !! u) as [s|] eqn:Hs; [|done].
    apply lookup_BrokenLinks in Hs as [_ Hs]. congruence. }
  split; [|split; [done|]].
  - intros [_ Hu]%elem_of_ValidURLs. congruence.
  - intros t [s [Hs _]]%elem_of_BrokenLinkTasks Heq. rewrite Heq in Hs.
    congruence.
Qed.

Lemma handle_failure root opts now st cb u s :
  isFailure cb = true -> outcome cb = Some (u, s) ->
  broken (handle root opts now st cb) !! u = Some s.
Proof.
  destruct cb as [e|r|[r|]]; simpl; try done.
  - intros Hf. unfold onResponse. destruct (normalizeURL _) as [[l ?]|]; [|done].
    intros [= -> <-]. apply negb_true_iff in Hf. rewrite Hf. simpl.
    apply lookup_insert_eq.
  - intros _. unfold onError. destruct (err_RequestURL r); simpl; [|done].
    destruct (normalizeURL _) as [[l ?]|]; [|done].
    intros [= -> <-]. simpl. apply lookup_insert_eq.
Qed.

Lemma handle_broken_other root opts now st cb u :
  (∀ s, outcome cb ≠ Some (u, s)) ->
  broken (handle root opts now st cb) !! u = broken st !! u.
Proof.
  destruct cb as [e|r|[r|]]; simpl; try done.
  - intros _. by destruct (onHTML_valid_broken root opts st e) as [_ ->].
  - unfold onResponse. destruct (normalizeURL _) as [[l ?]|]; [|done].
    intros Hne. assert (l ≠ u) by (intros ->; by eapply Hne).
    destruct (_ && _); simpl;
      [by rewrite lookup_delete_ne|by rewrite lookup_insert_ne].
  - unfold onError. destruct (err_RequestURL r); simpl; [|done].
    destruct (normalizeURL _) as [[l ?]|]; [|done].
    intros Hne. assert (l ≠ u) by (intros ->; by eapply Hne).
    simpl. by rewrite lookup_insert_ne.
Qed.

Lemma foldl_broken_other root opts now cbs st u :
  (∀ cb, cb ∈ cbs -> ∀ s, outcome cb ≠ Some (u, s)) ->
  broken (foldl (handle root opts now) st cbs) !! u = broken st !! u.
Proof.
  revert st. induction cbs as [|cb cbs IH]; intros st Hall; simpl; [done|].
  rewrite IH by (intros cb' Hin; apply Hall; by right).
  apply handle_broken_other. apply Hall. by left.
Qed.

(** C9, amended: [Crawl] returns an error only before any page is handled:
    when the root URL is missing or invalid, when the collector rejects the
    concurrency limit, or when the collector fails to start on the root URL.
    No callback makes it fail: once the crawl has started a [Result] is
    returned whatever the callbacks are, and a failure reported for a URL
    that is not excluded, and for which no later callback reports, is in
    BrokenLinks and BrokenLinkTasks with its status. *)
Theorem Crawl_fails_only_before_the_crawl collector now opts :
  (∀ err, Crawl collector now opts = inl err ->
     normalizeRoot (RootURL opts) = inl err
     ∨ ∃ start root cause,
         normalizeRoot (RootURL opts) = inr (start, root)
         ∧ let run := collector (collectorConfig (withDefaults opts) root) start in
           (err = ConfigureCrawlerConcurrency cause
            ∧ run_LimitError run = Some cause)
           ∨ (err = StartCrawling cause ∧ run_VisitError run = Some cause))
  ∧ (∀ start root,
       normalizeRoot (RootURL opts) = inr (start, root) ->
       let run := collector (collectorConfig (withDefaults opts) root) start in
       run_LimitError run = None -> run_VisitError run = None ->
       ∃ r, Crawl collector now opts = inr r
         ∧ ∀ before cb after u s,
             run_Callbacks run = before ++ cb :: after ->
             isFailure cb = true -> outcome cb = Some (u, s) ->
             (∀ cb', cb' ∈ after -> ∀ s', outcome cb' ≠ Some (u, s')) ->
             shouldExclude u (ExcludePatterns opts) = false ->
             BrokenLinks r !! u = Some s
             ∧ ∃ t, t ∈ BrokenLinkTasks r ∧ task_URL t = u ∧ task_Status t = s).
Proof.
  split.
  - intros err.
    destruct (normalizeRoot (RootURL opts)) as [e|[start root]] eqn:Hroot.
    { unfold Crawl. rewrite Hroot. intros [= ->]. by left. }
    rewrite (Crawl_unfold _ _ _ _ _ Hroot). simpl.
    destruct (run_LimitError _) as [cause|] eqn:Hl.
    { intros [= <-]. right. exists start, root, cause. split; [done|]. by left. }
    destruct (run_VisitError _) as [cause|] eqn:Hv; [|done].
    intros [= <-]. right. exists start, root, cause. split; [done|]. by right.
  - intros start root Hroot run Hl Hv.
    rewrite (Crawl_unfold _ _ _ _ _ Hroot). fold run. rewrite Hl, Hv.
    eexists. split; [reflexivity|].
    intros before cb after u s Hcbs Hf Ho Hafter Hx.
    assert (Hb : BrokenLinks (assemble (withDefaults opts)
                   (runCallbacks root (withDefaults opts) now (run_Callbacks run)))
                 !! u = Some s).
    { apply lookup_BrokenLinks. rewrite withDefaults_patterns. split; [|done].
      unfold runCallbacks. rewrite Hcbs, foldl_app. simpl.
      rewrite foldl_broken_other by done. by apply handle_failure. }
    split; [done|].
    eexists (brokenTask _ (u, s)). split; [|done].
    apply elem_of_BrokenLinkTasks. exists s. done.
Qed.


End CrawlState.

(** *** The code on concrete runs *)

(** After a failure and then a success for the same URL the URL is valid and
    no longer broken; a 404 delivered to [OnError] is broken and not valid. *)
Lemma valid_and_broken_stay_disjoint_witness :
  broken (@runCallbacks plainStd sample.rootX (sample.opts "https://x/" [])
            sample.now sample.flappingRun) !! "https://x/a" = None
  ∧ (∃ r, @Crawl plainStd (sample.runOf sample.brokenRun) sample.now
            (sample.opts "https://x/" []) = inr r
          ∧ BrokenLinks r !! "https://x/" = None)
  ∧ ("https://x/a" ∈ valid (@onResponse plainStd sample.now initialState
        (mkResponse "https://x/a" 200 None None)))
  ∧ broken (@onError plainStd initialState
              (Some (mkErrorResponse (Some "https://x/broken") 404)))
      !! "https://x/broken" = Some 404.
Proof.
  destruct (@valid_and_broken_stay_disjoint plainStd) as (Hrun & Hres & Hok & Herr).
  split; [|split; [|split]].
  - apply Hrun. vm_compute. reflexivity.
  - eexists. split; [vm_compute; reflexivity|].
    eapply (Hres (sample.runOf sample.brokenRun) sample.now
              (sample.opts "https://x/" [])).
    + vm_compute. reflexivity.
    + vm_compute. left.
  - eapply (Hok sample.now initialState (mkResponse "https://x/a" 200 None None)).
    + vm_compute. reflexivity.
    + simpl. lia.
  - eapply (Herr initialState (mkErrorResponse (Some "https://x/broken") 404)).
    + reflexivity.
    + vm_compute. reflexivity.
Defined.

(** The root itself matches the pattern [/]: it is fetched, with success or
    with a 503, and is in no list of the result. *)
Lemma excluded_urls_are_not_reported_witness :
  (∃ r, @Crawl plainStd (sample.runOf [sample.served "https://x/" 200 sample.plainPage])
          sample.now (sample.opts "https://x/" ["/"]) = inr r
        ∧ ("https://x/" ∉ ValidURLs r))
  ∧ (∃ r, @Crawl plainStd (sample.runOf [sample.failed "https://x/" 503])
            sample.now (sample.opts "https://x/" ["/"]) = inr r
          ∧ BrokenLinks r !! "https://x/" = None
          ∧ ∀ t, t ∈ BrokenLinkTasks r -> task_URL t ≠ "https://x/").
Proof.
  split.
  - eexists. split; [vm_compute; reflexivity|].
    eapply (@excluded_urls_are_not_reported plainStd
              (sample.runOf [sample.served "https://x/" 200 sample.plainPage])
              sample.now (sample.opts "https://x/" ["/"])).
    + vm_compute. reflexivity.
    + vm_compute. reflexivity.
  - eexists. split; [vm_compute; reflexivity|].
    eapply (@excluded_urls_are_not_reported plainStd
              (sample.runOf [sample.failed "https://x/" 503])
              sample.now (sample.opts "https://x/" ["/"])).
    + vm_compute. reflexivity.
    + vm_compute. reflexivity.
Defined.

(** Counterexample to C9 as stated: the root URL is valid and the concurrency limit is
    accepted, yet [Crawl] returns an error, because the collector could not
    reach the host when it was started on the root. *)
Lemma Crawl_fails_on_unreachable_root :
  @normalizeRoot plainStd "https://x/" = inr ("https://x/", sample.rootX)
  ∧ run_LimitError
      (sample.unreachableRun
         (@collectorConfig plainStd
            (withDefaults (sample.opts "https://x/" [])) sample.rootX)
         "https://x/") = None
  ∧ @Crawl plainStd sample.unreachableRun sample.now (sample.opts "https://x/" [])
    = inl (StartCrawling "no such host").
Proof. split; [|split]; vm_compute; reflexivity. Qed.

(** A 404 and a transport failure end up in the result of a crawl that
    returns normally. *)
Lemma Crawl_fails_only_before_the_crawl_witness :
  ∃ r, @Crawl plainStd (sample.runOf sample.brokenRun) sample.now
         (sample.opts "https://x/" []) = inr r
       ∧ BrokenLinks r !! "https://x/broken" = Some 404
       ∧ BrokenLinks r !! "https://x/down" = Some 0.
Proof.
  destruct (@Crawl_fails_only_before_the_crawl plainStd
              (sample.runOf sample.brokenRun) sample.now
              (sample.opts "https://x/" [])) as [_ Hstarted].
  destruct (Hstarted "https://x/" sample.rootX) as (r & Hr & Hall);
    [vm_compute; reflexivity|reflexivity|reflexivity|].
  exists r. split; [exact Hr|]. split.
  - eapply (Hall (take 3 sample.brokenRun) (sample.failed "https://x/broken" 404)
              [sample.failed "https://x/down" 0]).
    + reflexivity.
    + reflexivity.
    + vm_compute. reflexivity.
    + intros cb' Hin%list_elem_of_singleton s'. subst cb'. vm_compute.
      discriminate.
    + vm_compute. reflexivity.
  - eapply (Hall (take 4 sample.brokenRun) (sample.failed "https://x/down" 0) []).
    + reflexivity.
    + reflexivity.
    + vm_compute. reflexivity.
    + intros cb' Hin. by apply elem_of_nil in Hin.
    + vm_compute. reflexivity.
Defined.



Section CanonicalTagsUnused.
Context `{GoStd}.

Lemma GetLastModified_withoutCanonical header doc now :
  GetLastModified header (withoutCanonical <$> doc) now
  = GetLastModified header doc now.
Proof. by destruct doc. Qed.

Lemma handle_withoutCanonical root opts now st cb :
  handle root opts now st (withoutCanonicalCallback cb)
  = handle root opts now st cb.
Proof.
  destruct cb as [e|r|r]; simpl; try done.
  unfold onResponse. simpl. by rewrite GetLastModified_withoutCanonical.
Qed.

Lemma foldl_withoutCanonical root opts now cbs st :
  foldl (handle root opts now) st (withoutCanonicalCallback <$> cbs)
  = foldl (handle root opts now) st cbs.
Proof.
  revert st. induction cbs as [|cb cbs IH]; intros st; simpl; [done|].
  by rewrite handle_withoutCanonical, IH.
Qed.

Lemma Crawl_withoutCanonicalTags collector now opts :
  Crawl (withoutCanonicalTags collector) now opts = Crawl collector now opts.
Proof.
  unfold Crawl. destruct (normalizeRoot _) as [?|[start root]]; [done|].
  simpl. unfold runCallbacks. by rewrite foldl_withoutCanonical.
Qed.

End CanonicalTagsUnused.

(** C1, where the code departs from it: the [Result] of [Crawl] has the six
    fields of the [Result] record and no canonical analysis, and the
    canonical tags of the fetched pages have no bearing on it: removing them
    from every page leaves the [Result] as it is.  At the concrete input the
    fetched page declares a canonical on another host, which [Extract] finds
    and [Validate] reports as a cross_domain issue; yet the [Result] is the
    one obtained for the same page without the tag. *)
Theorem Crawl_result_lacks_canonical_analysis :
  (∀ (std : GoStd) collector now opts,
     Crawl (withoutCanonicalTags collector) now opts = Crawl collector now opts)
  ∧ @Extract plainStd "https://x/" (Some sample.canonicalPage)
    = mkInfo "https://x/" "https://other.com/" 1 false false
  ∧ @Validate plainStd {[ "https://x/" := "https://other.com/" ]}
      {[ "https://x/" := 200 ]}
    = Some [mkIssue "https://x/" "https://other.com/" IssueCrossDomain
              "canonical target is on a different host"]
  ∧ @Crawl plainStd (sample.runOf [sample.served "https://x/" 200 sample.canonicalPage])
      sample.now (sample.opts "https://x/" [])
    = inr (mkResult ["https://x/"] ∅ []
             {[ "https://x/" := Time_UTC sample.now ]} 1 0)
  ∧ @Crawl plainStd (sample.runOf [sample.served "https://x/" 200 sample.plainPage])
      sample.now (sample.opts "https://x/" [])
    = inr (mkResult ["https://x/"] ∅ []
             {[ "https://x/" := Time_UTC sample.now ]} 1 0).
Proof.
  split; [intros std; apply Crawl_withoutCanonicalTags|].
  repeat split; vm_compute; reflexivity.
Qed.

(** C7, at the input where the code departs from it: a path made of
    slashes only is trimmed to the empty path after the test for the empty
    path, so the normalized form of [https://x//] has no path, and
    normalizing that form gives another URL. *)
Theorem normalizeURL_slashes_only_not_idempotent :
  let normalize raw := fst <$> @crawler.normalizeURL plainStd raw in
  normalize "https://x//" = Some "https://x"
  ∧ normalize "https://x" = Some "https://x/"
  ∧ normalize "https://x//" ≫= normalize ≠ normalize "https://x//".
Proof. repeat split; vm_compute; congruence. Qed.

(** The cases of the normalization tests. *)
Example normalizeURL_tests :
  (fun raw => fst <$> @crawler.normalizeURL plainStd raw)
    <$> [ "https://example.com"; "https://example.com/page#section";
          "https://example.com/about/"; "https://example.com/";
          "https://example.com/search?q=test"; "https://example.com/page/?q=1";
          "https://example.com/page?q=1#frag" ]
  = Some <$> [ "https://example.com/"; "https://example.com/page";
               "https://example.com/about"; "https://example.com/";
               "https://example.com/search?q=test"; "https://example.com/page?q=1";
               "https://example.com/page?q=1" ].
Proof. vm_compute. reflexivity. Qed.

(** The cases of the exclusion tests. *)
Example shouldExclude_tests :
  (fun case : string * list string => @shouldExclude plainStd case.1 case.2)
    <$> [ ("https://example.com/page", []);
          ("https://example.com/page", [""; "  "]);
          ("https://example.com/print/page", ["*/print/*"]);
          ("https://example.com/file.pdf", ["*.pdf"]);
          ("https://example.com/about", ["*.pdf"; "*/print/*"]);
          ("https://example.com/page?lang=rs", ["*?lang=rs"]);
          ("https://example.com/admin/settings", ["/admin/*"]) ]
  = [false; false; true; true; false; true; true].
Proof. vm_compute. reflexivity. Qed.

(** ** Further properties of the code *)

(** *** URL normalization *)

Lemma bytes_app s t : bytes (s +:+ t) = bytes s ++ bytes t.
Proof.
  induction s as [|a s IH]; simpl; [done|].
  unfold bytes in *. simpl. by rewrite IH.
Qed.

Lemma bytes_of_bytes l : bytes (of_bytes l) = l.
Proof. apply list_ascii_of_string_of_list_ascii. Qed.

Lemma dropByte_head c l x l' : dropByte c l = x :: l' -> x ≠ c.
Proof.
  induction l as [|y l IH]; simpl; [done|].
  destruct (Ascii.eqb_spec y c) as [->|Hne]; [done|]. by intros [= <- _].
Qed.

Lemma dropByte_idem c l : dropByte c (dropByte c l) = dropByte c l.
Proof.
  induction l as [|y l IH]; simpl; [done|].
  destruct (Ascii.eqb_spec y c) as [->|Hne]; [done|].
  simpl. by apply Ascii.eqb_neq in Hne as ->.
Qed.

(** The text left by [strings.TrimRight] does not end with the byte cut. *)
Lemma strings_TrimRight_end s c t :
  strings_TrimRight s c ≠ t +:+ String c EmptyString.
Proof.
  unfold strings_TrimRight. intros Heq.
  apply (f_equal bytes) in Heq. rewrite bytes_of_bytes, bytes_app in Heq.
  apply (f_equal (@rev ascii)) in Heq.
  rewrite rev_involutive, rev_app_distr in Heq.
  simpl in Heq. by apply dropByte_head in Heq.
Qed.

Lemma strings_TrimRight_idem s c :
  strings_TrimRight (strings_TrimRight s c) c = strings_TrimRight s c.
Proof.
  unfold strings_TrimRight.
  by rewrite bytes_of_bytes, rev_involutive, dropByte_idem.
Qed.

Lemma normalPath_idem path :
  normalPath path ≠ "" -> normalPath (normalPath path) = normalPath path.
Proof.
  unfold normalPath.
  destruct (String.eqb path ""); [done|].
  destruct (String.eqb path "/"); [done|].
  intros Hne. apply String.eqb_neq in Hne. rewrite Hne.
  destruct (String.eqb_spec (strings_TrimRight path "/") "/") as [->|_];
    [done|apply strings_TrimRight_idem].
Qed.


Section Normalization.
Context `{GoStd}.

(** The URL [normalizeURL] builds from the parsed one. *)
Lemma normalizeURL_unfold raw :
  crawler.normalizeURL raw =
    match url_Parse raw with
    | None => None
    | Some u =>
        let p := set_Path (normalPath (Path u)) (set_Fragment "" u) in
        Some (url_String p, p)
    end.
Proof.
  unfold crawler.normalizeURL, normalPath.
  destruct (url_Parse raw) as [u|]; [|done].
  destruct u as [sc op us ho pa rp om fq rq fr rf]. simpl.
  destruct (String.eqb_spec pa "") as [->|Hne]; simpl; [done|].
  destruct (String.eqb_spec pa "/") as [->|Hnr]; simpl; done.
Qed.

(** X1: [normalizeURL] fails exactly when [url.Parse] does.  The URL it
    returns has no fragment, its path is [/] or does not end with a slash,
    and scheme, host, userinfo, opaque part and query are those of the
    parsed input; the text returned is that URL printed. *)
Theorem normalizeURL_shape raw :
  (crawler.normalizeURL raw = None ↔ url_Parse raw = None)
  ∧ ∀ n p, crawler.normalizeURL raw = Some (n, p) ->
      n = url_String p
      ∧ Fragment p = ""
      ∧ (Path p = "/" ∨ ∀ s, Path p ≠ s +:+ "/")
      ∧ ∃ u, url_Parse raw = Some u
          ∧ Scheme p = Scheme u ∧ Host p = Host u ∧ User p = User u
          ∧ Opaque p = Opaque u ∧ RawQuery p = RawQuery u
          ∧ ForceQuery p = ForceQuery u.
Proof.
  rewrite normalizeURL_unfold. destruct (url_Parse raw) as [u|]; [|done].
  split; [done|]. intros n p [= <- <-].
  split; [done|]. split; [done|]. split.
  - simpl. unfold normalPath. destruct (String.eqb (Path u) ""); [by left|].
    destruct (String.eqb (Path u) "/"); [by left|].
    right. intros s. apply strings_TrimRight_end.
  - by exists u.
Qed.

(** X2: a normalized URL whose path is not empty and that [url.Parse] reads
    back as printed is a fixed point: normalizing it again returns the same
    text and the same URL. *)
Theorem normalizeURL_fixed_point raw n p :
  crawler.normalizeURL raw = Some (n, p) ->
  url_Parse n = Some p -> Path p ≠ "" ->
  crawler.normalizeURL n = Some (n, p).
Proof.
  rewrite !normalizeURL_unfold. destruct (url_Parse raw) as [u|]; [|done].
  intros [= <- <-] -> Hpath. simpl in *.
  by rewrite (normalPath_idem _ Hpath).
Qed.

(** X3: the canonical package normalizes as the crawler does, and a
    canonical href resolves exactly when page and href parse and the
    crawler's normalization accepts the resolved reference; the result is
    the crawler's normalized text. *)
Theorem canonical_normalizeURL_agrees :
  (∀ raw, canonical.normalizeURL raw = fst <$> crawler.normalizeURL raw)
  ∧ (∀ pageURL href resolved,
       resolveAgainstPage pageURL href = Some resolved ↔
       ∃ base ref parsed,
         url_Parse pageURL = Some base ∧ url_Parse href = Some ref
         ∧ crawler.normalizeURL (url_String (url_ResolveReference base ref))
           = Some (resolved, parsed)).
Proof.
  assert (Hagree : ∀ raw,
            canonical.normalizeURL raw = fst <$> crawler.normalizeURL raw).
  { intros raw. unfold canonical.normalizeURL, crawler.normalizeURL.
    by destruct (url_Parse raw). }
  split; [done|]. intros pageURL href resolved. unfold resolveAgainstPage.
  destruct (url_Parse pageURL) as [base|];
    [|split; [done|]; by intros (? & ? & ? & ? & _)].
  destruct (url_Parse href) as [ref|];
    [|split; [done|]; by intros (? & ? & ? & _ & ? & _)].
  rewrite Hagree. split.
  - destruct (crawler.normalizeURL _) as [[r parsed]|] eqn:Hn; [|done].
    intros [= <-]. by exists base, ref, parsed.
  - intros (? & ? & parsed & [= <-] & [= <-] & ->). done.
Qed.


(** X5: exclusion is decided pattern by pattern: a URL is excluded by a
    list of patterns exactly when one part of the list excludes it, so more
    patterns never bring a URL back; a pattern that is blank once trimmed
    excludes nothing. *)
Theorem shouldExclude_app link :
  (∀ ps qs,
     shouldExclude link (ps ++ qs)
     = shouldExclude link ps || shouldExclude link qs)
  ∧ (∀ p ps, strings_TrimSpace p = "" ->
       shouldExclude link (p :: ps) = shouldExclude link ps).
Proof.
  split.
  - intros ps qs. induction ps as [|p ps IH]; simpl; [done|].
    repeat case_match; try done; exact IH.
  - intros p ps Hp. simpl. by rewrite Hp.
Qed.

End Normalization.

(** The trailing slash and the fragment go; scheme, host and query stay. *)
Lemma normalizeURL_shape_witness :
  ∃ n p, @crawler.normalizeURL plainStd "https://example.com/a/?q=1#top"
         = Some (n, p)
    ∧ n = @url_String plainStd p ∧ Fragment p = ""
    ∧ (Path p = "/" ∨ ∀ s, Path p ≠ s +:+ "/")
    ∧ ∃ u, @url_Parse plainStd "https://example.com/a/?q=1#top" = Some u
        ∧ Scheme p = Scheme u ∧ Host p = Host u ∧ User p = User u
        ∧ Opaque p = Opaque u ∧ RawQuery p = RawQuery u
        ∧ ForceQuery p = ForceQuery u.
Proof.
  destruct (@normalizeURL_shape plainStd "https://example.com/a/?q=1#top")
    as [_ Hshape].
  eexists _, _. split; [vm_compute; reflexivity|].
  apply Hshape. vm_compute. reflexivity.
Defined.

Lemma normalizeURL_fixed_point_witness :
  fst <$> @crawler.normalizeURL plainStd "https://example.com/about"
  = Some "https://example.com/about".
Proof.
  erewrite (@normalizeURL_fixed_point plainStd "https://example.com/about/#x");
    [reflexivity|vm_compute; reflexivity|vm_compute; reflexivity|discriminate].
Defined.

Lemma canonical_normalizeURL_agrees_witness :
  @resolveAgainstPage plainStd "https://example.com/page" "/services/seo/"
  = Some "https://example.com/services/seo".
Proof.
  destruct (@canonical_normalizeURL_agrees plainStd) as [_ Hres].
  apply Hres. do 3 eexists. split; [vm_compute; reflexivity|].
  split; [vm_compute; reflexivity|]. vm_compute. reflexivity.
Defined.


Lemma shouldExclude_app_witness :
  @shouldExclude plainStd "https://example.com/file.pdf" ["  "; "*.pdf"]
  = @shouldExclude plainStd "https://example.com/file.pdf" ["*.pdf"].
Proof.
  destruct (@shouldExclude_app plainStd "https://example.com/file.pdf")
    as [_ Hblank].
  apply Hblank. reflexivity.
Defined.

(** *** The callbacks as effects *)

Ltac set_fields :=
  apply set_eq; intros ?;
  repeat (rewrite elem_of_union || rewrite elem_of_difference
          || rewrite elem_of_singleton);
  intuition congruence.

Lemma applyEffect_commute e1 e2 st :
  (∀ u, statusURL e1 = Some u -> statusURL e2 = Some u -> False) ->
  applyEffect e1 (applyEffect e2 st) = applyEffect e2 (applyEffect e1 st).
Proof.
  intros Hne.
  assert (Hu : ∀ u1 u2, statusURL e1 = Some u1 -> statusURL e2 = Some u2 -> u1 ≠ u2).
  { intros u1 u2 H1 H2 <-. by eapply Hne. }
  destruct e1 as [| |l1 s1|u1 t1|u1 c1 b1], e2 as [| |l2 s2|u2 t2|u2 c2 b2];
    try reflexivity; simpl; try (specialize (Hu _ _ eq_refl eq_refl));
    f_equal;
    try (match goal with |- context [if ?b then _ else _] => destruct b end);
    try (match goal with |- context [if ?b then _ else _] => destruct b end);
    try set_fields.
  - destruct s1 as [s1|], s2 as [s2|]; try done.
    destruct (decide (l1 = l2)) as [->|Hl].
    + rewrite !lookup_insert_eq, !insert_insert_eq. simpl. f_equal. set_fields.
    + rewrite !lookup_insert_ne by done. by apply insert_insert_ne.
  - by rewrite delete_delete.
  - by rewrite insert_insert_ne.
  - by rewrite delete_insert_ne.
  - by rewrite delete_insert_ne.
  - by rewrite insert_insert_ne.
Qed.

Lemma applyEffect_other eff st u :
  statusURL eff ≠ Some u ->
  (u ∈ crawler.valid (applyEffect eff st) ↔ u ∈ crawler.valid st)
  ∧ crawler.broken (applyEffect eff st) !! u = crawler.broken st !! u.
Proof.
  destruct eff as [| |l s|v t|v c b]; simpl; intros Hne; try done.
  - assert (v ≠ u) by congruence.
    rewrite elem_of_union, elem_of_singleton, lookup_delete_ne by done.
    intuition congruence.
  - assert (v ≠ u) by congruence.
    rewrite elem_of_difference, elem_of_singleton, lookup_insert_ne by done.
    intuition congruence.
Qed.

Lemma GetLastModified_location `{GoStd} header doc now :
  location (GetLastModified header doc now) = "UTC".
Proof. unfold GetLastModified. by repeat case_match. Qed.

Section CrawlRun.
Context `{GoStd}.
Variables (root : URL) (opts : Options) (now : Time).

Lemma onHTML_effect st e :
  onHTML root opts st e
  = (applyEffect (effectOf root opts now (OnHTML e)) st,
     handedToVisit root opts e).
Proof.
  unfold effectOf, handedToVisit, onHTML. destruct st.
  repeat (case_match; simplify_eq; simpl in *; try done).
Qed.

Lemma handle_effect st cb :
  handle root opts now st cb = applyEffect (effectOf root opts now cb) st.
Proof.
  destruct cb as [e|r|r]; simpl.
  - by rewrite onHTML_effect.
  - unfold onResponse. by repeat case_match.
  - unfold onError. by repeat case_match.
Qed.

Lemma effectOf_outcome cb :
  match outcome cb with
  | Some (u, s) =>
      if isFailure cb
      then ∃ seen, effectOf root opts now cb = MarkBroken u s seen
      else ∃ t, effectOf root opts now cb = MarkValid u t ∧ location t = "UTC"
  | None => statusURL (effectOf root opts now cb) = None
  end.
Proof.
  destruct cb as [e|r|[r|]]; simpl; try done.
  - by repeat case_match.
  - destruct (crawler.normalizeURL (resp_RequestURL r)) as [[u p]|]; [|done].
    destruct (_ && _); simpl; eauto using GetLastModified_location.
  - destruct (err_RequestURL r) as [q|]; simpl; [|done].
    destruct (crawler.normalizeURL q) as [[u p]|]; simpl; eauto.
Qed.

Lemma statusURL_outcome cb :
  statusURL (effectOf root opts now cb) = fst <$> outcome cb.
Proof.
  pose proof (effectOf_outcome cb) as Ho.
  destruct (outcome cb) as [[u s]|]; [|done].
  destruct (isFailure cb); [destruct Ho as [? ->]|destruct Ho as (? & -> & _)];
    done.
Qed.

Lemma handle_commute st cb1 cb2 :
  (∀ u, fst <$> outcome cb1 = Some u -> fst <$> outcome cb2 = Some u -> False) ->
  handle root opts now (handle root opts now st cb1) cb2
  = handle root opts now (handle root opts now st cb2) cb1.
Proof.
  intros Hne. rewrite !handle_effect. apply applyEffect_commute.
  intros u. rewrite !statusURL_outcome. intros H2 H1. by apply (Hne u).
Qed.

Lemma foldl_handle_permutation cbs cbs' :
  cbs ≡ₚ cbs' -> NoDup (reportedURLs cbs) ->
  ∀ st, foldl (handle root opts now) st cbs
        = foldl (handle root opts now) st cbs'.
Proof.
  unfold reportedURLs.
  induction 1 as [|x l l' Hp IH|x y l|l l' l'' Hp IH Hp' IH']; intros Hnd st.
  - done.
  - simpl. apply IH. simpl in Hnd.
    destruct (fst <$> outcome x); [by apply NoDup_cons in Hnd as [_ ?]|done].
  - simpl. f_equal. apply handle_commute. intros u Hy Hx.
    simpl in Hnd. rewrite Hx, Hy in Hnd.
    apply NoDup_cons in Hnd as [Hnd _]. apply Hnd. left.
  - rewrite IH by done. apply IH'.
    by rewrite <-Hp.
Qed.

Lemma effectOf_UTC cb u t :
  effectOf root opts now cb = MarkValid u t -> location t = "UTC".
Proof.
  destruct cb as [e|r|r]; simpl.
  - by repeat case_match.
  - repeat case_match; try done. intros [= <- <-].
    apply GetLastModified_location.
  - by repeat case_match.
Qed.

Lemma effectOf_Discover cb u src :
  effectOf root opts now cb = Discover u src
  ↔ ∃ e, cb = OnHTML e ∧ handedToVisit root opts e = Some u
         ∧ src = match crawler.normalizeURL (elem_RequestURL e) with
                 | Some (s, _) => Some s
                 | None => None
                 end.
Proof.
  destruct cb as [e|r|r]; simpl.
  - unfold handedToVisit.
    destruct (onHTML root opts initialState e) as [st' [l|]] eqn:Hon; simpl.
    + split.
      * intros [= <- <-]. exists e. by rewrite Hon.
      * intros (e' & [= <-] & Hl & ->). rewrite Hon in Hl. simpl in Hl.
        by injection Hl as ->.
    + split; [by case_match|]. intros (e' & [= <-] & Hl & _).
      by rewrite Hon in Hl.
  - split; [by repeat case_match|]. by intros (e' & [=] & _).
  - split; [by repeat case_match|]. by intros (e' & [=] & _).
Qed.



Lemma seenOf_effectOf cb :
  seenOf (effectOf root opts now cb) = seenURL root opts cb.
Proof.
  destruct cb as [e|r|r]; simpl.
  - unfold handedToVisit.
    destruct (onHTML root opts initialState e) as [st' [l|]] eqn:Hon; simpl;
      [done|by case_match].
  - by repeat case_match.
  - by repeat case_match.
Qed.

End CrawlRun.

Lemma applyEffect_consistent eff st :
  (∀ u t, eff = MarkValid u t -> location t = "UTC") ->
  consistent st -> consistent (applyEffect eff st).
Proof.
  intros Hutc (Hsub & Hdated & Hloc).
  destruct eff as [| |l s|v t|v c b]; simpl; try done.
  - split; [|done]. simpl. intros u Hu. apply elem_of_union_r. by apply Hsub.
  - split; [|split]; simpl.
    + intros u [Hu|Hu]%elem_of_union;
        [by apply elem_of_union_l|apply elem_of_union_r; by apply Hsub].
    + intros u Hu. destruct (decide (v = u)) as [->|Hne].
      * rewrite lookup_insert_eq. by eexists.
      * rewrite lookup_insert_ne by done. apply Hdated.
        apply elem_of_union in Hu as [Hu|Hu]; [|done].
        apply elem_of_singleton in Hu. congruence.
    + intros u t'. destruct (decide (v = u)) as [->|Hne].
      * rewrite lookup_insert_eq. intros [= <-]. by eapply Hutc.
      * rewrite lookup_insert_ne by done. apply Hloc.
  - split; [|split]; simpl; [|intros u [Hu _]%elem_of_difference; by apply Hdated|done].
    intros u [Hu _]%elem_of_difference. apply Hsub in Hu.
    destruct b; [by apply elem_of_union_r|done].
Qed.

Lemma applyEffect_sources eff st u s :
  s ∈ default ∅ (sources (applyEffect eff st) !! u)
  ↔ s ∈ default ∅ (sources st !! u) ∨ eff = Discover u (Some s).
Proof.
  destruct eff as [| |l [q|]|v t|v c b]; simpl;
    try (split; [by left|by intros [?|[=]]]).
  destruct (decide (l = u)) as [->|Hne].
  - rewrite lookup_insert_eq. simpl. rewrite elem_of_union, elem_of_singleton.
    split.
    + intros [->|?]; [by right|by left].
    + intros [?|[= ->]]; [by right|by left].
  - rewrite lookup_insert_ne by done.
    split; [by left|]. intros [?|[= ? ?]]; [done|congruence].
Qed.


Lemma applyEffect_discovered eff st :
  discovered (applyEffect eff st)
  = match seenOf eff with
    | Some u => {[ u ]} ∪ discovered st
    | None => discovered st
    end.
Proof. destruct eff as [| |l s|v t|v c [|]]; done. Qed.

Lemma applyEffect_lastModified eff st :
  lastModified (applyEffect eff st)
  = match eff with
    | MarkValid u t => <[ u := t ]> (lastModified st)
    | _ => lastModified st
    end.
Proof. by destruct eff. Qed.

Lemma applyEffect_status eff st :
  match eff with
  | MarkValid u _ =>
      u ∈ valid (applyEffect eff st) ∧ broken (applyEffect eff st) !! u = None
  | MarkBroken u s _ =>
      (u ∉ valid (applyEffect eff st))
      ∧ broken (applyEffect eff st) !! u = Some s
  | _ => True
  end.
Proof.
  destruct eff as [| |l s|v t|v c b]; simpl; try done.
  - split; [by apply elem_of_union_l, elem_of_singleton|by rewrite lookup_delete_eq].
  - split; [|by rewrite lookup_insert_eq].
    rewrite elem_of_difference, elem_of_singleton. tauto.
Qed.

Section CrawlFold.
Context `{GoStd}.
Variables (root : URL) (opts : Options) (now : Time).

Lemma foldl_handle_consistent cbs st :
  consistent st -> consistent (foldl (handle root opts now) st cbs).
Proof.
  revert st. induction cbs as [|cb cbs IH]; intros st Hst; [done|].
  simpl. apply IH. rewrite handle_effect. apply applyEffect_consistent; [|done].
  intros u t. apply effectOf_UTC.
Qed.

Lemma runCallbacks_consistent cbs : consistent (runCallbacks root opts now cbs).
Proof.
  apply foldl_handle_consistent. split; [done|]. split.
  - intros u Hu. by apply elem_of_empty in Hu.
  - intros u t Hu. simpl in Hu. by rewrite lookup_empty in Hu.
Qed.

Lemma foldl_handle_sources cbs st u s :
  s ∈ default ∅ (sources (foldl (handle root opts now) st cbs) !! u)
  ↔ s ∈ default ∅ (sources st !! u)
    ∨ ∃ e p, OnHTML e ∈ cbs ∧ handedToVisit root opts e = Some u
             ∧ crawler.normalizeURL (elem_RequestURL e) = Some (s, p).
Proof.
  revert st. induction cbs as [|cb cbs IH]; intros st; simpl.
  - split; [by left|]. intros [?|(e & p & Hin & _)]; [done|].
    by apply elem_of_nil in Hin.
  - rewrite IH, handle_effect, applyEffect_sources, effectOf_Discover.
    split.
    + intros [[?|(e & -> & Hv & Hs)]|(e & p & Hin & Hv & Hs)].
      * by left.
      * right.
        destruct (crawler.normalizeURL (elem_RequestURL e)) as [[q p]|] eqn:Hq;
          [|done].
        injection Hs as ->. exists e, p. split; [left|done].
      * right. exists e, p. split; [by right|done].
    + intros [?|(e & p & Hin & Hv & Hs)]; [by left; left|].
      apply elem_of_cons in Hin as [<-|Hin].
      * left; right. exists e. by rewrite Hs.
      * right. by exists e, p.
Qed.


Lemma foldl_handle_discovered cbs st :
  discovered (foldl (handle root opts now) st cbs)
  = list_to_set (omap (seenURL root opts) cbs) ∪ discovered st.
Proof.
  revert st. induction cbs as [|cb cbs IH]; intros st; simpl.
  - apply set_eq. intros x. rewrite elem_of_union, elem_of_empty. tauto.
  - rewrite IH, handle_effect, applyEffect_discovered, seenOf_effectOf.
    destruct (seenURL root opts cb) as [u|]; [|done]. simpl.
    apply set_eq. intros x. rewrite !elem_of_union. tauto.
Qed.

Lemma foldl_handle_unreported cbs st u :
  u ∉ reportedURLs cbs ->
  (u ∈ valid (foldl (handle root opts now) st cbs) ↔ u ∈ valid st)
  ∧ broken (foldl (handle root opts now) st cbs) !! u = broken st !! u.
Proof.
  unfold reportedURLs.
  revert st. induction cbs as [|cb cbs IH]; intros st Hu; [done|].
  simpl in *.
  assert (Hcb : statusURL (effectOf root opts now cb) ≠ Some u).
  { rewrite statusURL_outcome. intros Heq. rewrite Heq in Hu. apply Hu. left. }
  assert (Hrest : u ∉ omap (λ cb, fst <$> outcome cb) cbs).
  { intros Hin. apply Hu. destruct (fst <$> outcome cb); [by right|done]. }
  destruct (IH (handle root opts now st cb) Hrest) as [-> ->].
  rewrite handle_effect. by apply applyEffect_other.
Qed.

End CrawlFold.

Lemma taskLe_trans : Transitive taskLe.
Proof. intros a b c. unfold taskLe. apply transitivity. Qed.

Lemma taskLe_total : Total taskLe.
Proof. intros a b. unfold taskLe. apply total, _. Qed.

Lemma brokenTask_Sources srcs entry :
  StronglySorted String.le (task_Sources (brokenTask srcs entry))
  ∧ NoDup (task_Sources (brokenTask srcs entry))
  ∧ ∀ s, s ∈ task_Sources (brokenTask srcs entry)
         ↔ s ∈ default ∅ (srcs !! entry.1).
Proof.
  unfold brokenTask. simpl. destruct (srcs !! entry.1) as [S|]; simpl.
  - split; [apply StronglySorted_merge_sort; apply _|]. split.
    + rewrite merge_sort_Permutation. apply NoDup_elements.
    + intros s. by rewrite merge_sort_Permutation, elem_of_elements.
  - split; [constructor|]. split; [constructor|].
    intros s. rewrite elem_of_nil, elem_of_empty. tauto.
Qed.

Lemma applyEffect_other_lastModified eff st u :
  statusURL eff ≠ Some u ->
  lastModified (applyEffect eff st) !! u = lastModified st !! u.
Proof.
  destruct eff as [| |l s|v t|v c b]; simpl; intros Hne; try done.
  assert (v ≠ u) by congruence. by rewrite lookup_insert_ne.
Qed.

(** *** The result of a crawl *)

Section CrawlResult.
Context `{GoStd}.

Lemma Crawl_result collector now opts start root r :
  normalizeRoot (RootURL opts) = inr (start, root) ->
  Crawl collector now opts = inr r ->
  r = assemble (withDefaults opts)
        (runCallbacks root (withDefaults opts) now
           (run_Callbacks
              (collector (collectorConfig (withDefaults opts) root) start))).
Proof.
  intros Hroot. rewrite (Crawl_unfold _ _ _ _ _ Hroot). simpl.
  repeat case_match; try done. by intros [= <-].
Qed.

Lemma foldl_handle_unreported_lastModified root opts now cbs st u :
  u ∉ reportedURLs cbs ->
  lastModified (foldl (handle root opts now) st cbs) !! u
  = lastModified st !! u.
Proof.
  unfold reportedURLs.
  revert st. induction cbs as [|cb cbs IH]; intros st Hu; [done|].
  simpl in *.
  assert (Hcb : statusURL (effectOf root opts now cb) ≠ Some u).
  { rewrite statusURL_outcome. intros Heq. rewrite Heq in Hu. apply Hu. left. }
  assert (Hrest : u ∉ omap (λ cb, fst <$> outcome cb) cbs).
  { intros Hin. apply Hu. destruct (fst <$> outcome cb); [by right|done]. }
  rewrite (IH _ Hrest), handle_effect. by apply applyEffect_other_lastModified.
Qed.

Lemma effectOf_success root opts now cb u s :
  outcome cb = Some (u, s) -> isFailure cb = false ->
  ∃ resp, cb = OnResponse resp
    ∧ effectOf root opts now cb
      = MarkValid u (GetLastModified (resp_Headers resp) (resp_Document resp) now).
Proof.
  destruct cb as [e|resp|r]; simpl; try done.
  destruct (crawler.normalizeURL (resp_RequestURL resp)) as [[v p]|]; [|done].
  intros [= -> <-] Hok. exists resp. split; [done|].
  by apply negb_false_iff in Hok as ->.
Qed.

(** X6: when no URL has its status reported twice, the result of a crawl
    does not depend on the order in which the collector delivers the
    callbacks: two collectors that report the same errors and invoke the same
    callbacks in different orders give the same outcome of [Crawl]. *)
Theorem Crawl_order_independent collector collector' now opts :
  (∀ cfg start,
     run_LimitError (collector cfg start) = run_LimitError (collector' cfg start)
     ∧ run_VisitError (collector cfg start)
       = run_VisitError (collector' cfg start)
     ∧ run_Callbacks (collector cfg start) ≡ₚ run_Callbacks (collector' cfg start)
     ∧ NoDup (reportedURLs (run_Callbacks (collector cfg start)))) ->
  Crawl collector now opts = Crawl collector' now opts.
Proof.
  intros Hsame. unfold Crawl.
  destruct (normalizeRoot (RootURL opts)) as [err|[start root]]; [done|].
  simpl.
  destruct (Hsame (collectorConfig (withDefaults opts) root) start)
    as (Hl & Hv & Hp & Hnd).
  rewrite <-Hl, <-Hv.
  destruct (run_LimitError _); [done|]. destruct (run_VisitError _); [done|].
  do 2 f_equal. unfold runCallbacks. by apply foldl_handle_permutation.
Qed.

(** X7: the [ValidURLs] of a result are in ascending order without
    duplicates, and there are at most [Discovered] of them. *)
Theorem ValidURLs_ascending collector now opts r :
  Crawl collector now opts = inr r ->
  StronglySorted String.le (ValidURLs r) ∧ NoDup (ValidURLs r)
  ∧ Z.of_nat (length (ValidURLs r)) <= Discovered r.
Proof.
  intros (root & cbs & ->)%Crawl_inr.
  destruct (runCallbacks_consistent root (withDefaults opts) now cbs)
    as (Hsub & _).
  unfold assemble. simpl.
  split; [apply StronglySorted_merge_sort; apply _|]. split.
  - rewrite merge_sort_Permutation. apply NoDup_filter, NoDup_elements.
  - rewrite merge_sort_Permutation. apply inj_le.
    etransitivity; [apply length_filter|]. by apply subseteq_size in Hsub.
Qed.

(** X8: every URL of [ValidURLs] has an entry in [LastModified], and every
    timestamp of [LastModified] is in UTC. *)
Theorem ValidURLs_dated collector now opts r :
  Crawl collector now opts = inr r ->
  (∀ u, u ∈ ValidURLs r -> is_Some (LastModified r !! u))
  ∧ (∀ u t, LastModified r !! u = Some t -> location t = "UTC").
Proof.
  intros (root & cbs & ->)%Crawl_inr.
  destruct (runCallbacks_consistent root (withDefaults opts) now cbs)
    as (_ & Hdated & Hloc).
  split; [|exact Hloc].
  intros u [Hu _]%elem_of_ValidURLs. by apply Hdated.
Qed.

(** X9: [BrokenLinkTasks] lists exactly the entries of [BrokenLinks], one
    task per broken URL with its status, in ascending order of URL; the
    sources of a task are in ascending order without duplicates. *)
Theorem BrokenLinkTasks_mirror_BrokenLinks collector now opts r :
  Crawl collector now opts = inr r ->
  (∀ u s, BrokenLinks r !! u = Some s
          ↔ ∃ t, t ∈ BrokenLinkTasks r ∧ task_URL t = u ∧ task_Status t = s)
  ∧ StronglySorted String.le (task_URL <$> BrokenLinkTasks r)
  ∧ NoDup (task_URL <$> BrokenLinkTasks r)
  ∧ length (BrokenLinkTasks r) = size (BrokenLinks r)
  ∧ ∀ t, t ∈ BrokenLinkTasks r ->
         StronglySorted String.le (task_Sources t) ∧ NoDup (task_Sources t).
Proof.
  intros (root & cbs & ->)%Crawl_inr.
  set (st := runCallbacks root (withDefaults opts) now cbs).
  split; [|split; [|split; [|split]]].
  - intros u s. split.
    + intros Hs. exists (brokenTask (sources st) (u, s)). split; [|done].
      apply elem_of_BrokenLinkTasks. by exists s.
    + intros (t & (s' & Hs & ->)%elem_of_BrokenLinkTasks & <- & <-). done.
  - unfold assemble. simpl.
    apply (StronglySorted_fmap task_URL taskLe); [done|].
    apply (@StronglySorted_merge_sort _ taskLe _ taskLe_trans taskLe_total).
  - unfold assemble. simpl. rewrite merge_sort_Permutation, <-list_fmap_compose.
    apply NoDup_fst_map_to_list.
  - unfold assemble. simpl.
    by rewrite merge_sort_Permutation, length_fmap, length_map_to_list.
  - intros t (s & _ & ->)%elem_of_BrokenLinkTasks.
    destruct (brokenTask_Sources (sources st) (task_URL t, s)) as (? & ? & _).
    done.
Qed.

(** X10: the sources of a broken-link task are the pages that linked to its
    URL: [s] is listed iff some [OnHTML] callback of the run, for an anchor on
    the page whose normalized URL is [s], handed the URL of the task to
    [Visit]. *)
Theorem task_Sources_are_the_linking_pages collector now opts start root r t s :
  normalizeRoot (RootURL opts) = inr (start, root) ->
  Crawl collector now opts = inr r ->
  t ∈ BrokenLinkTasks r ->
  s ∈ task_Sources t
  ↔ ∃ e p,
      OnHTML e ∈ run_Callbacks
                   (collector (collectorConfig (withDefaults opts) root) start)
      ∧ handedToVisit root (withDefaults opts) e = Some (task_URL t)
      ∧ crawler.normalizeURL (elem_RequestURL e) = Some (s, p).
Proof.
  intros Hroot Hr. rewrite (Crawl_result _ _ _ _ _ _ Hroot Hr).
  intros (c & _ & ->)%elem_of_BrokenLinkTasks.
  match goal with
  | |- context [brokenTask ?m ?e] =>
      destruct (brokenTask_Sources m e) as (_ & _ & ->)
  end.
  simpl. unfold runCallbacks. rewrite foldl_handle_sources. simpl.
  rewrite lookup_empty. simpl. rewrite elem_of_empty. tauto.
Qed.


(** X12: the last report on a URL decides its place in the result.  When
    the last callback of the run that reports a status for [u] is a failure,
    [u] is in [BrokenLinks] with that status and not in [ValidURLs]; when it is
    a success response, [u] is in [ValidURLs], not in [BrokenLinks], and its
    [LastModified] is the timestamp of that response.  ([u] matches no
    exclusion pattern.) *)
Theorem last_report_decides collector now opts start root r pre cb post u s :
  normalizeRoot (RootURL opts) = inr (start, root) ->
  Crawl collector now opts = inr r ->
  run_Callbacks (collector (collectorConfig (withDefaults opts) root) start)
  = pre ++ cb :: post ->
  outcome cb = Some (u, s) ->
  u ∉ reportedURLs post ->
  shouldExclude u (ExcludePatterns opts) = false ->
  if isFailure cb
  then BrokenLinks r !! u = Some s ∧ (u ∉ ValidURLs r)
  else u ∈ ValidURLs r ∧ BrokenLinks r !! u = None
       ∧ ∃ resp, cb = OnResponse resp
           ∧ LastModified r !! u
             = Some (GetLastModified (resp_Headers resp) (resp_Document resp)
                       now).
Proof.
  intros Hroot Hr Hrun Ho Hpost Hkept.
  rewrite (Crawl_result _ _ _ _ _ _ Hroot Hr), Hrun.
  unfold runCallbacks. rewrite foldl_app. cbn [foldl].
  set (st := foldl _ initialState pre).
  destruct (foldl_handle_unreported root (withDefaults opts) now post
              (handle root (withDefaults opts) now st cb) u Hpost) as [Hv Hb].
  pose proof (foldl_handle_unreported_lastModified root (withDefaults opts) now post
                (handle root (withDefaults opts) now st cb) u Hpost) as Hm.
  pose proof (effectOf_outcome root (withDefaults opts) now cb) as He. rewrite Ho in He.
  pose proof (applyEffect_status (effectOf root (withDefaults opts) now cb) st) as Hst.
  rewrite <-handle_effect in Hst.
  destruct (isFailure cb) eqn:Hfail.
  - destruct He as [seen He]. rewrite He in Hst. destruct Hst as [Hnv Hsb].
    split.
    + apply lookup_BrokenLinks. rewrite withDefaults_patterns.
      split; [|done]. by rewrite Hb.
    + rewrite elem_of_ValidURLs, Hv. tauto.
  - destruct (effectOf_success root (withDefaults opts) now cb u s Ho Hfail)
      as (resp & -> & He').
    rewrite He' in Hst. destruct Hst as [Hin Hnb].
    split; [|split].
    + apply elem_of_ValidURLs. rewrite withDefaults_patterns.
      split; [|done]. by apply Hv.
    + destruct (BrokenLinks _ !! u) as [c|] eqn:Hc; [|done].
      apply lookup_BrokenLinks in Hc as [Hc _]. rewrite Hb in Hc. congruence.
    + exists resp. split; [done|]. unfold assemble. cbn [LastModified].
      rewrite Hm, handle_effect, He'. simpl. by rewrite lookup_insert_eq.
Qed.

(** X13: a URL for which no callback of the run reports a status is neither
    in [ValidURLs] nor in [BrokenLinks] nor in a task, and has no
    [LastModified]. *)
Theorem unreported_url_has_no_status collector now opts start root r u :
  normalizeRoot (RootURL opts) = inr (start, root) ->
  Crawl collector now opts = inr r ->
  u ∉ reportedURLs
        (run_Callbacks
           (collector (collectorConfig (withDefaults opts) root) start)) ->
  (u ∉ ValidURLs r) ∧ BrokenLinks r !! u = None
  ∧ (∀ t, t ∈ BrokenLinkTasks r -> task_URL t ≠ u)
  ∧ LastModified r !! u = None.
Proof.
  intros Hroot Hr Hu. rewrite (Crawl_result _ _ _ _ _ _ Hroot Hr).
  destruct (foldl_handle_unreported root (withDefaults opts) now _ initialState u Hu)
    as [Hv Hb].
  pose proof (foldl_handle_unreported_lastModified root (withDefaults opts) now _
                initialState u Hu) as Hm.
  assert (Hnone : BrokenLinks (assemble (withDefaults opts)
             (runCallbacks root (withDefaults opts) now
                (run_Callbacks (collector (collectorConfig (withDefaults opts) root) start))))
           !! u = None).
  { destruct (BrokenLinks _ !! u) as [c|] eqn:Hc; [|done].
    apply lookup_BrokenLinks in Hc as [Hc _].
    unfold runCallbacks in Hc. rewrite Hb in Hc. done. }
  split; [|split; [done|split]].
  - rewrite elem_of_ValidURLs. unfold runCallbacks. rewrite Hv.
    intros [Hin _]. by apply elem_of_empty in Hin.
  - intros t (c & Hc & _)%elem_of_BrokenLinkTasks Heq. rewrite Heq in Hc.
    congruence.
  - unfold assemble, runCallbacks. simpl. by rewrite Hm.
Qed.

(** X14: [Discovered] is the number of distinct URLs among the links handed
    to [Visit] and the URLs of the responses received; a URL known only from
    an error is not counted. *)
Theorem Discovered_counts_links_and_responses collector now opts start root r :
  normalizeRoot (RootURL opts) = inr (start, root) ->
  Crawl collector now opts = inr r ->
  Discovered r
  = Z.of_nat
      (size (list_to_set (C := gset string)
               (omap (seenURL root (withDefaults opts))
                  (run_Callbacks
                     (collector (collectorConfig (withDefaults opts) root)
                        start))))).
Proof.
  intros Hroot Hr. rewrite (Crawl_result _ _ _ _ _ _ Hroot Hr).
  unfold assemble, runCallbacks. simpl. rewrite foldl_handle_discovered.
  simpl. do 2 f_equal. apply set_eq. intros x.
  rewrite elem_of_union, elem_of_empty. tauto.
Qed.

End CrawlResult.

(** The root page links to [/a], which answers 404; the collector delivers
    the three callbacks in one order or another. *)
Lemma Crawl_order_independent_witness :
  @Crawl plainStd
    (sample.runOf [ sample.served "https://x/" 200 sample.plainPage;
                    sample.anchor "/a" "https://x/";
                    sample.failed "https://x/a" 404 ])
    sample.now (sample.opts "https://x/" [])
  = @Crawl plainStd
      (sample.runOf [ sample.failed "https://x/a" 404;
                      sample.served "https://x/" 200 sample.plainPage;
                      sample.anchor "/a" "https://x/" ])
      sample.now (sample.opts "https://x/" []).
Proof.
  apply (@Crawl_order_independent plainStd). intros cfg start.
  unfold sample.runOf. cbn [run_Callbacks run_LimitError run_VisitError].
  split; [done|]. split; [done|]. split.
  - symmetry. apply Permutation_cons_append.
  - assert (Hr : @reportedURLs plainStd
                   [ sample.served "https://x/" 200 sample.plainPage;
                     sample.anchor "/a" "https://x/";
                     sample.failed "https://x/a" 404 ]
                 = ["https://x/"; "https://x/a"]) by (vm_compute; reflexivity).
    rewrite Hr. apply NoDup_cons. split; [|apply NoDup_singleton].
    rewrite list_elem_of_singleton. discriminate.
Defined.

Lemma ValidURLs_ascending_witness :
  ∃ r, @Crawl plainStd (sample.runOf sample.flappingRun) sample.now
         (sample.opts "https://x/" []) = inr r
       ∧ StronglySorted String.le (ValidURLs r) ∧ NoDup (ValidURLs r)
       ∧ Z.of_nat (length (ValidURLs r)) <= Discovered r.
Proof.
  eexists. split; [vm_compute; reflexivity|].
  apply (@ValidURLs_ascending plainStd (sample.runOf sample.flappingRun)
           sample.now (sample.opts "https://x/" [])).
  vm_compute. reflexivity.
Defined.

Lemma ValidURLs_dated_witness :
  ∃ r, @Crawl plainStd (sample.runOf sample.flappingRun) sample.now
         (sample.opts "https://x/" []) = inr r
       ∧ (∀ u, u ∈ ValidURLs r -> is_Some (LastModified r !! u))
       ∧ (∀ u t, LastModified r !! u = Some t -> location t = "UTC").
Proof.
  eexists. split; [vm_compute; reflexivity|].
  apply (@ValidURLs_dated plainStd (sample.runOf sample.flappingRun)
           sample.now (sample.opts "https://x/" [])).
  vm_compute. reflexivity.
Defined.

Lemma BrokenLinkTasks_mirror_BrokenLinks_witness :
  ∃ r, @Crawl plainStd (sample.runOf sample.brokenRun) sample.now
         (sample.opts "https://x/" []) = inr r
       ∧ (∀ u s, BrokenLinks r !! u = Some s
            ↔ ∃ t, t ∈ BrokenLinkTasks r ∧ task_URL t = u ∧ task_Status t = s)
       ∧ StronglySorted String.le (task_URL <$> BrokenLinkTasks r)
       ∧ NoDup (task_URL <$> BrokenLinkTasks r)
       ∧ length (BrokenLinkTasks r) = size (BrokenLinks r)
       ∧ ∀ t, t ∈ BrokenLinkTasks r ->
           StronglySorted String.le (task_Sources t) ∧ NoDup (task_Sources t).
Proof.
  eexists. split; [vm_compute; reflexivity|].
  apply (@BrokenLinkTasks_mirror_BrokenLinks plainStd
           (sample.runOf sample.brokenRun) sample.now
           (sample.opts "https://x/" [])).
  vm_compute. reflexivity.
Defined.

Lemma task_Sources_are_the_linking_pages_witness :
  ∃ r, @Crawl plainStd (sample.runOf sample.brokenRun) sample.now
         (sample.opts "https://x/" []) = inr r
       ∧ mkBrokenLinkTask "https://x/broken" 404 ["https://x/"]
           ∈ BrokenLinkTasks r
       ∧ ("https://x/" ∈ ["https://x/"]
          ↔ ∃ e p, OnHTML e ∈ sample.brokenRun
              ∧ @handedToVisit plainStd sample.rootX
                  (@withDefaults (sample.opts "https://x/" [])) e
                = Some "https://x/broken"
              ∧ @crawler.normalizeURL plainStd (elem_RequestURL e)
                = Some ("https://x/", p)).
Proof.
  eexists. split; [vm_compute; reflexivity|]. split; [vm_compute; left|].
  eapply (@task_Sources_are_the_linking_pages plainStd
           (sample.runOf sample.brokenRun) sample.now
           (sample.opts "https://x/" []) "https://x/" sample.rootX _
           (mkBrokenLinkTask "https://x/broken" 404 ["https://x/"])
           "https://x/").
  - vm_compute. reflexivity.
  - vm_compute. reflexivity.
  - vm_compute. left.
Defined.


(** [/a] first fails, then answers 200. *)
Lemma last_report_decides_witness :
  ∃ r, @Crawl plainStd (sample.runOf sample.flappingRun) sample.now
         (sample.opts "https://x/" []) = inr r
       ∧ ("https://x/a" ∈ ValidURLs r)
       ∧ BrokenLinks r !! "https://x/a" = None
       ∧ ∃ resp, sample.served "https://x/a" 200 sample.plainPage
                 = OnResponse resp
           ∧ LastModified r !! "https://x/a"
             = Some (@GetLastModified plainStd (resp_Headers resp)
                       (resp_Document resp) sample.now).
Proof.
  eexists. split; [vm_compute; reflexivity|].
  eapply (@last_report_decides plainStd (sample.runOf sample.flappingRun)
            sample.now (sample.opts "https://x/" []) "https://x/"
            sample.rootX _
            [ sample.served "https://x/" 200 sample.plainPage;
              sample.anchor "/a" "https://x/";
              sample.failed "https://x/a" 0 ]
            (sample.served "https://x/a" 200 sample.plainPage) []
            "https://x/a" 200).
  - vm_compute. reflexivity.
  - vm_compute. reflexivity.
  - reflexivity.
  - vm_compute. reflexivity.
  - intros Hin. by apply elem_of_nil in Hin.
  - vm_compute. reflexivity.
Defined.

Lemma unreported_url_has_no_status_witness :
  ∃ r, @Crawl plainStd (sample.runOf sample.brokenRun) sample.now
         (sample.opts "https://x/" []) = inr r
       ∧ ("https://x/nowhere" ∉ ValidURLs r)
       ∧ BrokenLinks r !! "https://x/nowhere" = None
       ∧ (∀ t, t ∈ BrokenLinkTasks r -> task_URL t ≠ "https://x/nowhere")
       ∧ LastModified r !! "https://x/nowhere" = None.
Proof.
  eexists. split; [vm_compute; reflexivity|].
  apply (@unreported_url_has_no_status plainStd (sample.runOf sample.brokenRun)
           sample.now (sample.opts "https://x/" []) "https://x/" sample.rootX).
  - vm_compute. reflexivity.
  - vm_compute. reflexivity.
  - assert (Hr : @reportedURLs plainStd
                   (run_Callbacks
                      (sample.runOf sample.brokenRun
                         (@collectorConfig plainStd
                            (withDefaults (sample.opts "https://x/" []))
                            sample.rootX) "https://x/"))
                 = ["https://x/"; "https://x/broken"; "https://x/down"])
      by (vm_compute; reflexivity).
    rewrite Hr. rewrite !elem_of_cons, elem_of_nil.
    intros [?|[?|[?|[]]]]; discriminate.
Defined.

(** The root, [/broken] and [/down] are discovered: the root by its response,
    the other two as links; the two errors add nothing. *)
Lemma Discovered_counts_links_and_responses_witness :
  ∃ r, @Crawl plainStd (sample.runOf sample.brokenRun) sample.now
         (sample.opts "https://x/" []) = inr r
       ∧ Discovered r = 3.
Proof.
  eexists. split; [vm_compute; reflexivity|].
  etransitivity;
    [eapply (@Discovered_counts_links_and_responses plainStd
               (sample.runOf sample.brokenRun) sample.now
               (sample.opts "https://x/" []) "https://x/" sample.rootX)|];
    vm_compute; reflexivity.
Defined.

(** *** The canonical walk *)

Lemma hop_functional m p q q' : hop m p q -> hop m p q' -> q = q'.
Proof. intros [Hq _] [Hq' _]. congruence. Qed.

Lemma last_path (pre : list string) c s l :
  pre ++ [c] = s :: l -> List.last l s = c.
Proof.
  destruct pre as [|a pre]; simpl.
  - by intros [= -> <-].
  - intros [= -> <-]. apply last_last.
Qed.

Lemma last_cons (a p : string) l : List.last (a :: l) p = List.last l a.
Proof.
  revert a p. induction l as [|b l IH]; intros a p; [done|].
  change (List.last (a :: b :: l) p) with (List.last (b :: l) p).
  by rewrite (IH b p), (IH b a).
Qed.

Lemma walkFrom_snoc m p l n :
  walkFrom m p l -> hop m (List.last l p) n -> walkFrom m p (l ++ [n]).
Proof.
  induction 1 as [p|p q l Hpq Hw IH]; intros Hn.
  - apply walk_hop; [exact Hn|constructor].
  - rewrite last_cons in Hn. simpl. apply walk_hop; [done|]. by apply IH.
Qed.

Lemma walkFrom_app_hop m p l n k :
  walkFrom m p (l ++ n :: k) -> hop m (List.last l p) n.
Proof.
  revert p. induction l as [|a l IH]; intros p Hw; simpl in Hw.
  - by inversion Hw.
  - inversion Hw; subst. rewrite last_cons. by apply IH.
Qed.

Lemma walkFrom_prefix m p l l' :
  walkFrom m p l -> walkFrom m p l' -> (length l <= length l')%nat ->
  ∃ k, l' = l ++ k.
Proof.
  intros Hw. revert l'. induction Hw as [p|p q l Hpq Hw IH]; intros l' Hw' Hlen.
  - by exists l'.
  - destruct Hw' as [p|p q' l' Hpq' Hw']; simpl in Hlen; [lia|].
    assert (q' = q) as -> by (by eapply hop_functional).
    destruct (IH l' Hw') as [k ->]; [lia|]. by exists k.
Qed.

Lemma walkEnds_not_walkCycles m p l : walkEnds m p l -> ¬ walkCycles m p.
Proof.
  intros (Hw & Hnd & Hend) (l' & Hw' & Hdup).
  destruct (decide (length l' <= length l)%nat) as [Hle|Hgt].
  - destruct (walkFrom_prefix m p l' l Hw' Hw Hle) as [k ->].
    apply Hdup. rewrite app_comm_cons in Hnd. by apply NoDup_app in Hnd as [? _].
  - destruct (walkFrom_prefix m p l l' Hw Hw') as [k ->]; [lia|].
    destruct k as [|n k]; [rewrite app_nil_r in Hgt; lia|].
    by apply (Hend n), (walkFrom_app_hop m p l n k).
Qed.

Lemma NoDup_keys_length (m : gmap string string) (pre : list string) :
  NoDup pre -> (∀ q, q ∈ pre -> is_Some (m !! q)) ->
  (length pre <= size m)%nat.
Proof.
  intros Hnd Hin.
  rewrite <-(size_list_to_set (C := gset string) pre Hnd), <-(size_dom m).
  apply subseteq_size. intros q Hq. apply elem_of_list_to_set in Hq.
  by apply elem_of_dom, Hin.
Qed.

Lemma hop_lookup m q n : hop m q n -> is_Some (m !! q).
Proof.
  intros [Hq _]. unfold declared in Hq. destruct (m !! q); [by eexists|done].
Qed.

(** What the loop of [detectLoopOrChain] keeps true: the path is the walk
    from [start], the pages before [current] are the keys of [visited], all
    different, and each declares another page. *)
Lemma walkChain_detail fuel m start target visited pre current steps i :
  walkChain fuel m start target visited (pre ++ [current]) current steps
  = Some (Some i) ->
  (∀ q, is_Some (visited !! q) ↔ q ∈ pre) ->
  NoDup pre ->
  (∀ q, q ∈ pre -> ∃ n, hop m q n) ->
  (∃ l, pre ++ [current] = start :: l ∧ walkFrom m start l) ->
  steps = Z.of_nat (length pre) ->
  (i = loopIssue start target ∧ walkCycles m start)
  ∨ (i = chainIssue start target
     ∧ ∃ l, walkEnds m start l ∧ (2 <= length l)%nat).
Proof.
  revert visited pre current steps.
  induction fuel as [|fuel IH];
    intros visited pre current steps Hr Hvis Hnd Hhops (l & Hpath & Hw) Hsteps;
    [discriminate|].
  simpl in Hr.
  assert (Hlen : length l = length pre).
  { apply (f_equal length) in Hpath. rewrite length_app in Hpath.
    simpl in Hpath. lia. }
  assert (Hchain : ∀ r, (∀ n, ¬ hop m current n) -> current ∉ pre ->
            (if 2 <=? steps then Some (chainIssue start target) else None)
            = Some r ->
            r = chainIssue start target
            ∧ ∃ l, walkEnds m start l ∧ (2 <= length l)%nat).
  { intros r Hend Hnew. destruct (2 <=? steps) eqn:Hge; [|done].
    intros [= <-]. split; [done|]. exists l. split; [|apply Z.leb_le in Hge; lia].
    split; [done|]. split.
    - rewrite <-Hpath. apply NoDup_app. split; [done|]. split.
      + intros q Hq ->%list_elem_of_singleton. done.
      + apply NoDup_singleton.
    - by rewrite (last_path pre current start l Hpath). }
  destruct (m !! current) as [next|] eqn:Hcur.
  2:{ right. injection Hr as Hr. apply Hchain; [| |done].
      - intros n [Hn _]. unfold declared in Hn. by rewrite Hcur in Hn.
      - intros [n Hn%hop_lookup]%Hhops. rewrite Hcur in Hn. by destruct Hn. }
  destruct (String.eqb_spec next "") as [->|Hne].
  { right. injection Hr as Hr. apply Hchain; [| |done].
    - intros n [Hn _]. unfold declared in Hn. by rewrite Hcur in Hn.
    - intros [n [Hn _]]%Hhops. unfold declared in Hn. by rewrite Hcur in Hn. }
  destruct (visited !! current) as [idx|] eqn:Hseen.
  { left. injection Hr as <-. split; [done|]. exists l. split; [done|].
    rewrite <-Hpath. intros (_ & Hdis & _)%NoDup_app.
    apply (Hdis current); [|by apply list_elem_of_singleton].
    apply Hvis. by eexists. }
  assert (Hnew : current ∉ pre).
  { intros Hin%Hvis. rewrite Hseen in Hin. by destruct Hin. }
  destruct (String.eqb_spec next current) as [->|Hother].
  { right. injection Hr as Hr. apply Hchain; [|done|done].
    intros n [Hn Hd]. unfold declared in Hn. rewrite Hcur in Hn.
    destruct (String.eqb current ""); congruence. }
  assert (Hhop : hop m current next).
  { split; [|done]. unfold declared. rewrite Hcur.
    by apply String.eqb_neq in Hne as ->. }
  assert (Hbound : (Z.of_nat (size m) + 1 <? steps + 1) = false).
  { apply Z.ltb_ge.
    pose proof (NoDup_keys_length m pre Hnd) as Hle.
    assert (length pre <= size m)%nat; [|lia].
    apply Hle. intros q [n Hn%hop_lookup]%Hhops. done. }
  rewrite Hbound in Hr.
  eapply (IH _ (pre ++ [current]) next (steps + 1)); [exact Hr| | | | |].
  - intros q. rewrite elem_of_app, list_elem_of_singleton, <-Hvis.
    destruct (decide (q = current)) as [->|Hq].
    + rewrite lookup_insert_eq. split; [by right|by eexists].
    + rewrite lookup_insert_ne by done. split; [by left|by intros [?|?]].
  - apply NoDup_app. split; [done|]. split; [|apply NoDup_singleton].
    intros q Hq ->%list_elem_of_singleton. done.
  - intros q [Hq| ->%list_elem_of_singleton]%elem_of_app; [by apply Hhops|].
    by exists next.
  - exists (l ++ [next]). split; [by rewrite Hpath|].
    apply walkFrom_snoc; [done|].
    by rewrite (last_path pre current start l Hpath).
  - rewrite length_app. simpl. lia.
Qed.

(** X15: the detail of a loop_or_chain issue tells a loop from a chain.
    The issue that [detectLoopOrChain] returns for [p] names [p] and its
    canonical; its detail is [canonical loop detected] exactly when the walk
    from [p] comes back to a page it has visited, and [canonical chain
    detected] exactly when the walk ends, after two hops or more, at a page
    that declares no other page.  The step bound of the loop never decides. *)
Theorem detail_tells_loop_from_chain m p i :
  detectLoopOrChain p m = Some (Some i) ->
  ∃ t, m !! p = Some t ∧ issue_PageURL i = p ∧ issue_CanonicalURL i = t
    ∧ issue_Type i = IssueLoopOrChain
    ∧ ((issue_Detail i = "canonical loop detected"
        ∧ walkCycles m p ∧ ∀ l, ¬ walkEnds m p l)
       ∨ (issue_Detail i = "canonical chain detected"
          ∧ (∃ l, walkEnds m p l ∧ (2 <= length l)%nat)
          ∧ ¬ walkCycles m p)).
Proof.
  unfold detectLoopOrChain, detectLoopOrChainFuel.
  destruct (m !! p) as [t|] eqn:Hp; [|done].
  destruct (String.eqb_spec t "") as [->|Hne]; [done|].
  destruct (String.eqb_spec t p) as [->|Hother]; [done|].
  cbn [orb]. intros Hr. exists t. split; [done|].
  apply (walkChain_detail _ m p t _ [p] t 1) in Hr.
  - destruct Hr as [[-> Hc]|[-> (l & He & Hl)]].
    + repeat (split; [done|]). left. split; [done|]. split; [done|].
      intros l He. by apply (walkEnds_not_walkCycles m p l).
    + repeat (split; [done|]). right. split; [done|].
      split; [by exists l|]. by apply (walkEnds_not_walkCycles m p l).
  - intros q. rewrite list_elem_of_singleton.
    destruct (decide (q = p)) as [->|Hq].
    + rewrite lookup_singleton_eq. split; [done|by eexists].
    + rewrite lookup_singleton_ne by done. split; [by intros [? ?]|done].
  - apply NoDup_singleton.
  - intros q ->%list_elem_of_singleton. exists t. split; [|done].
    unfold declared. rewrite Hp. by apply String.eqb_neq in Hne as ->.
  - exists [t]. split; [done|]. apply walk_hop; [|constructor].
    split; [|done]. unfold declared. rewrite Hp.
    by apply String.eqb_neq in Hne as ->.
  - done.
Qed.

(** *** The issues [Validate] returns *)

Lemma ltb_false_le a b : String.ltb a b = false ↔ String.le b a.
Proof.
  unfold String.le, String.leb, String.ltb.
  rewrite (String.compare_antisym b a).
  destruct (String.compare a b); simpl; by split.
Qed.

Lemma lex_step x y z (r1 r2 r3 : bool) :
  (r1 = false -> r2 = false -> r3 = false) ->
  (if negb (String.eqb y x) then String.ltb y x else r1) = false ->
  (if negb (String.eqb z y) then String.ltb z y else r2) = false ->
  (if negb (String.eqb z x) then String.ltb z x else r3) = false.
Proof.
  intros Hr.
  destruct (String.eqb_spec y x) as [Hyx|Hyx];
    destruct (String.eqb_spec z y) as [Hzy|Hzy]; simpl; subst.
  - rewrite String.eqb_refl. exact Hr.
  - intros _ Hz. by apply String.eqb_neq in Hzy as ->.
  - intros Hy _. by apply String.eqb_neq in Hyx as ->.
  - intros Hxy%ltb_false_le Hyz%ltb_false_le.
    destruct (String.eqb_spec z x) as [->|Hzx]; simpl.
    + destruct Hyx. by apply (anti_symm String.le).
    + apply ltb_false_le. by transitivity y.
Qed.

Lemma lex_total x y (r1 r2 : bool) :
  r1 = false ∨ r2 = false ->
  (if negb (String.eqb y x) then String.ltb y x else r1) = false
  ∨ (if negb (String.eqb x y) then String.ltb x y else r2) = false.
Proof.
  intros Hr. rewrite (String.eqb_sym x y).
  destruct (String.eqb_spec y x) as [->|Hyx]; simpl; [done|].
  rewrite !ltb_false_le. apply total, _.
Qed.

Lemma issueLe_trans : Transitive issueLe.
Proof.
  intros a b c. unfold issueLe, issueLess.
  do 3 apply lex_step. rewrite !ltb_false_le. intros ? ?. by transitivity
    (issue_Detail b).
Qed.

Lemma issueLe_total : Total issueLe.
Proof.
  intros a b. unfold issueLe, issueLess.
  do 3 apply lex_total. rewrite !ltb_false_le. apply total, _.
Qed.

Section ValidateOutput.
Context `{GoStd}.

Lemma validatePair_fields page target st i :
  validatePair page target st = Some i ->
  issue_PageURL i = page ∧ issue_CanonicalURL i = target.
Proof.
  unfold validatePair. repeat case_match; try done; by intros [= <-].
Qed.

Lemma detectLoopOrChain_fields m p i :
  detectLoopOrChain p m = Some (Some i) ->
  ∃ t, m !! p = Some t ∧ issue_PageURL i = p ∧ issue_CanonicalURL i = t.
Proof.
  unfold detectLoopOrChain, detectLoopOrChainFuel.
  destruct (m !! p) as [t|]; [|done]. destruct (_ || _); [done|].
  intros [-> | ->]%walkChain_issue; by exists t.
Qed.

Lemma validatePage_about m st acc page target acc' :
  m !! page = Some target ->
  (∀ i, i ∈ acc.1 -> m !! issue_PageURL i = Some (issue_CanonicalURL i)) ->
  validatePage m st acc page target = Some acc' ->
  ∀ i, i ∈ acc'.1 -> m !! issue_PageURL i = Some (issue_CanonicalURL i).
Proof.
  destruct acc as [issues seen]. unfold validatePage. cbn [fst]. intros Hm Hacc.
  assert (H1 : ∀ i, i ∈ (match validatePair page target st with
             | Some issue =>
                 if decide (pairKey issue ∈ seen) then (issues, seen)
                 else (issues ++ [issue], {[ pairKey issue ]} ∪ seen)
             | None => (issues, seen)
             end).1 -> m !! issue_PageURL i = Some (issue_CanonicalURL i)).
  { destruct (validatePair page target st) as [j|] eqn:Hp; [|done].
    apply validatePair_fields in Hp as [Hp Ht].
    case_decide; [done|]. cbn [fst].
    intros i [Hi| ->%list_elem_of_singleton]%elem_of_app; [by apply Hacc|].
    by rewrite Hp, Ht. }
  destruct (match validatePair page target st with Some _ => _ | None => _ end)
    as [issues1 seen1]. cbn [fst] in H1.
  destruct (detectLoopOrChain page m) as [[j|]|] eqn:Hd;
    [|by intros [= <-]|done].
  apply detectLoopOrChain_fields in Hd as (t & Ht & Hp & Hc).
  case_decide; intros [= <-]; [done|]. cbn [fst].
  intros i [Hi| ->%list_elem_of_singleton]%elem_of_app; [by apply H1|].
  by rewrite Hp, Hc.
Qed.

Lemma validatePages_about m st entries acc acc' :
  (∀ p t, (p, t) ∈ entries -> m !! p = Some t) ->
  (∀ i, i ∈ acc.1 -> m !! issue_PageURL i = Some (issue_CanonicalURL i)) ->
  validatePages m st acc entries = Some acc' ->
  ∀ i, i ∈ acc'.1 -> m !! issue_PageURL i = Some (issue_CanonicalURL i).
Proof.
  revert acc.
  induction entries as [|[page target] entries IH]; intros acc He Hacc; simpl.
  - by intros [= <-].
  - destruct (validatePage m st acc page target) as [acc1|] eqn:H1; [|done].
    apply IH.
    + intros p t Hin. apply He. by right.
    + eapply validatePage_about; [|exact Hacc|exact H1]. apply He. left.
Qed.

(** Nothing is collected yet, or something is: the keys seen are those of
    issues collected. *)
Lemma validatePage_nothing m st acc page target acc' :
  (acc.1 = [] -> acc.2 = ∅) ->
  validatePage m st acc page target = Some acc' ->
  (acc'.1 = [] -> acc'.2 = ∅)
  ∧ (acc'.1 = [] ↔ acc.1 = [] ∧ validatePair page target st = None
                   ∧ detectLoopOrChain page m = Some None).
Proof.
  destruct acc as [issues seen]. unfold validatePage. cbn [fst snd].
  intros Hinv.
  destruct (validatePair page target st) as [i1|];
    [destruct (decide (pairKey i1 ∈ seen)) as [Hin1|Hin1]|];
    (destruct (detectLoopOrChain page m) as [[i2|]|]; [|intros [= <-]|done]);
    try (case_decide as Hin2; intros [= <-]); cbn [fst snd];
    (split; [try done; try by intros []%app_eq_nil|]);
    (split; [intros Hnil|intros (Hnil & Hp & Hd); try done]);
    try (by apply app_eq_nil in Hnil as [_ ?]);
    try (rewrite (Hinv Hnil) in Hin1; by apply elem_of_empty in Hin1);
    try (rewrite (Hinv Hnil) in Hin2; by apply elem_of_empty in Hin2);
    try done.
Qed.

Lemma validatePages_nothing m st entries acc acc' :
  (acc.1 = [] -> acc.2 = ∅) ->
  validatePages m st acc entries = Some acc' ->
  (acc'.1 = [] ↔ acc.1 = []
     ∧ ∀ p t, (p, t) ∈ entries ->
         validatePair p t st = None ∧ detectLoopOrChain p m = Some None).
Proof.
  revert acc.
  induction entries as [|[page target] entries IH]; intros acc Hinv; simpl.
  - intros [= <-]. split; [|by intros [? _]].
    intros Hnil. split; [done|]. by intros p t Hin%elem_of_nil.
  - destruct (validatePage m st acc page target) as [acc1|] eqn:H1; [|done].
    destruct (validatePage_nothing m st acc page target acc1 Hinv H1)
      as [Hinv1 Hiff].
    intros Hrest. rewrite (IH acc1 Hinv1 Hrest), Hiff. split.
    + intros [(Hnil & Hp & Hd) Hall]. split; [done|].
      intros p t [[= -> ->]|Hin]%elem_of_cons; [done|by apply Hall].
    + intros [Hnil Hall]. split.
      * split; [done|]. apply Hall. left.
      * intros p t Hin. apply Hall. by right.
Qed.

(** X16: whatever the order in which [Validate] visits the map, the issues
    it returns are sorted by page, then type, then canonical, then detail,
    no issue occurs twice, and each one names a page of the map with the
    canonical the map gives it. *)
Theorem Validate_output_is_ordered entries m st issues :
  entries ≡ₚ map_to_list m ->
  ValidateIn entries m st = Some issues ->
  StronglySorted issueLe issues ∧ NoDup issues
  ∧ ∀ i, i ∈ issues -> m !! issue_PageURL i = Some (issue_CanonicalURL i).
Proof.
  intros Hperm Hv. split; [|split].
  - revert Hv. unfold ValidateIn.
    destruct (validatePages m st ([], ∅) entries) as [[issues0 seen]|]; [|done].
    intros [= <-].
    apply (@StronglySorted_merge_sort _ issueLe _ issueLe_trans issueLe_total).
  - apply ValidateIn_collected in Hv as [Hnd _]. by eapply NoDup_fmap_1.
  - revert Hv. unfold ValidateIn.
    destruct (validatePages m st ([], ∅) entries) as [[issues0 seen]|] eqn:Hv;
      [|done].
    intros [= <-] i Hi. rewrite merge_sort_Permutation in Hi.
    eapply (validatePages_about m st entries ([], ∅) (issues0, seen));
      [| |exact Hv|exact Hi].
    + intros p t Hin. rewrite Hperm in Hin. by apply elem_of_map_to_list.
    + by intros j Hj%elem_of_nil.
Qed.

(** X17: [Validate] returns no issue exactly when no page of the map has
    one: for every page, [validatePair] finds nothing wrong with its
    canonical and [detectLoopOrChain] flags no loop or chain.  The keys that
    drop repeated issues never drop the only one. *)
Theorem Validate_reports_nothing_iff_clean entries m st :
  entries ≡ₚ map_to_list m ->
  ValidateIn entries m st = Some []
  ↔ ∀ p t, m !! p = Some t ->
      validatePair p t st = None ∧ detectLoopOrChain p m = Some None.
Proof.
  intros Hperm. unfold ValidateIn.
  destruct (validatePages_returns m st entries ([], ∅)) as [[issues seen] Hv].
  rewrite Hv.
  pose proof (validatePages_nothing m st entries ([], ∅) (issues, seen)
                (fun _ => eq_refl) Hv) as Hiff.
  cbn [fst] in Hiff.
  assert (Hsort : merge_sort issueLe issues = [] ↔ issues = []).
  { split; [|by intros ->].
    intros Hnil. apply Permutation_nil_r. rewrite <-Hnil.
    by rewrite merge_sort_Permutation. }
  split.
  - intros [= Hnil]. apply Hsort, Hiff in Hnil as [_ Hall].
    intros p t Hin. apply Hall. rewrite Hperm. by apply elem_of_map_to_list.
  - intros Hall. f_equal. apply Hsort, Hiff. split; [done|].
    intros p t Hin. apply Hall. rewrite Hperm in Hin.
    by apply elem_of_map_to_list.
Qed.

End ValidateOutput.

(** Page [a] declares [b] and [b] declares [c], which declares nothing. *)
Lemma detail_tells_loop_from_chain_witness :
  ∃ t, (<[ "https://x/a" := "https://x/b" ]>
          {[ "https://x/b" := "https://x/c" ]} : gmap string string)
         !! "https://x/a" = Some t
    ∧ issue_PageURL (chainIssue "https://x/a" "https://x/b") = "https://x/a"
    ∧ issue_CanonicalURL (chainIssue "https://x/a" "https://x/b") = t
    ∧ issue_Type (chainIssue "https://x/a" "https://x/b") = IssueLoopOrChain
    ∧ ((issue_Detail (chainIssue "https://x/a" "https://x/b")
        = "canonical loop detected"
        ∧ walkCycles (<[ "https://x/a" := "https://x/b" ]>
                        {[ "https://x/b" := "https://x/c" ]}) "https://x/a"
        ∧ ∀ l, ¬ walkEnds (<[ "https://x/a" := "https://x/b" ]>
                             {[ "https://x/b" := "https://x/c" ]})
                   "https://x/a" l)
       ∨ (issue_Detail (chainIssue "https://x/a" "https://x/b")
          = "canonical chain detected"
          ∧ (∃ l, walkEnds (<[ "https://x/a" := "https://x/b" ]>
                              {[ "https://x/b" := "https://x/c" ]})
                    "https://x/a" l ∧ (2 <= length l)%nat)
          ∧ ¬ walkCycles (<[ "https://x/a" := "https://x/b" ]>
                            {[ "https://x/b" := "https://x/c" ]})
                "https://x/a")).
Proof.
  apply (detail_tells_loop_from_chain
           (<[ "https://x/a" := "https://x/b" ]>
              {[ "https://x/b" := "https://x/c" ]})
           "https://x/a" (chainIssue "https://x/a" "https://x/b")).
  vm_compute. reflexivity.
Defined.

(** Pages [a] and [b] declare each other. *)
Lemma Validate_output_is_ordered_witness :
  StronglySorted issueLe
    [ loopIssue "https://x/a" "https://x/b";
      loopIssue "https://x/b" "https://x/a" ]
  ∧ NoDup [ loopIssue "https://x/a" "https://x/b";
            loopIssue "https://x/b" "https://x/a" ]
  ∧ ∀ i, i ∈ [ loopIssue "https://x/a" "https://x/b";
               loopIssue "https://x/b" "https://x/a" ] ->
      (<[ "https://x/a" := "https://x/b" ]>
         {[ "https://x/b" := "https://x/a" ]} : gmap string string)
        !! issue_PageURL i = Some (issue_CanonicalURL i).
Proof.
  apply (@Validate_output_is_ordered plainStd
           (map_to_list (<[ "https://x/a" := "https://x/b" ]>
                           {[ "https://x/b" := "https://x/a" ]}))
           (<[ "https://x/a" := "https://x/b" ]>
              {[ "https://x/b" := "https://x/a" ]})
           (<[ "https://x/a" := 200 ]> {[ "https://x/b" := 200 ]})).
  - reflexivity.
  - vm_compute. reflexivity.
Defined.

(** A page that is its own canonical and answers 200. *)
Lemma Validate_reports_nothing_iff_clean_witness :
  @ValidateIn plainStd (map_to_list {[ "https://x/p" := "https://x/p" ]})
    {[ "https://x/p" := "https://x/p" ]} {[ "https://x/p" := 200 ]} = Some []
  ↔ ∀ p t, ({[ "https://x/p" := "https://x/p" ]} : gmap string string) !! p
           = Some t ->
      @validatePair plainStd p t {[ "https://x/p" := 200 ]} = None
      ∧ detectLoopOrChain p {[ "https://x/p" := "https://x/p" ]} = Some None.
Proof.
  apply (@Validate_reports_nothing_iff_clean plainStd
           (map_to_list {[ "https://x/p" := "https://x/p" ]})
           {[ "https://x/p" := "https://x/p" ]} {[ "https://x/p" := 200 ]}).
  reflexivity.
Defined.

(** *** Dates in JSON-LD blocks and in text *)

Section Dates.
Context `{GoStd}.

Lemma scanJSONLD_cons s rest :
  scanJSONLD (s :: rest)
  = match blockDate s with
    | Some t => Some t
    | None => scanJSONLD rest
    end.
Proof. unfold blockDate. simpl. by repeat case_match. Qed.

Lemma scanJSONLD_first scripts t :
  scanJSONLD scripts = Some t
  ↔ ∃ before s after, scripts = before ++ s :: after
      ∧ Forall (fun b => blockDate b = None) before ∧ blockDate s = Some t.
Proof.
  induction scripts as [|s rest IH].
  - split; [done|]. intros (before & s & after & Heq & _).
    by destruct before.
  - rewrite scanJSONLD_cons. destruct (blockDate s) as [t'|] eqn:Hs.
    + split.
      * intros [= ->]. by exists [], s, rest.
      * intros ([|b before] & s' & after & [= <- ->] & Hb & Ht).
        -- congruence.
        -- apply Forall_cons in Hb as [Hb _]. congruence.
    + rewrite IH. split.
      * intros (before & s' & after & -> & Hb & Ht).
        exists (s :: before), s', after. split; [done|].
        split; [by apply Forall_cons|done].
      * intros ([|b before] & s' & after & [= <- ->] & Hb & Ht).
        -- congruence.
        -- apply Forall_cons in Hb as [_ Hb]. by exists before, s', after.
Qed.

Lemma scanJSONLD_none scripts :
  scanJSONLD scripts = None ↔ Forall (fun b => blockDate b = None) scripts.
Proof.
  induction scripts as [|s rest IH]; [by split|].
  rewrite scanJSONLD_cons, Forall_cons. destruct (blockDate s).
  - split; [done|by intros [? _]].
  - rewrite IH. split; [by split|by intros [_ ?]].
Qed.

(** X18: [fromJSONLD] returns the date of the first JSON-LD block that
    yields one, and none when no block does.  A block yields none when its
    text is blank or when it decodes neither as an object nor as an array of
    objects. *)
Theorem fromJSONLD_first_dated_block doc :
  (∀ t, fromJSONLD doc = Some t
        ↔ ∃ before s after, Find doc jsonldSelector = before ++ s :: after
            ∧ Forall (fun b => blockDate b = None) before
            ∧ blockDate s = Some t)
  ∧ (fromJSONLD doc = None
     ↔ Forall (fun b => blockDate b = None) (Find doc jsonldSelector))
  ∧ ∀ s, strings_TrimSpace (Text s) = ""
         ∨ (json_Unmarshal_map (strings_TrimSpace (Text s)) = None
            ∧ json_Unmarshal_slice (strings_TrimSpace (Text s)) = None) ->
         blockDate s = None.
Proof.
  split; [|split].
  - intros t. apply scanJSONLD_first.
  - apply scanJSONLD_none.
  - intros s [Hblank|[Hmap Hslice]]; unfold blockDate; simpl.
    + by rewrite Hblank.
    + rewrite Hmap, Hslice. by case_match.
Qed.

Lemma parseLayouts_first layouts raw t :
  parseLayouts layouts raw = Some t
  ↔ ∃ before layout after, layouts = before ++ layout :: after
      ∧ Forall (fun l => time_Parse l raw = None) before
      ∧ time_Parse layout raw = Some t.
Proof.
  induction layouts as [|l rest IH]; simpl.
  - split; [done|]. intros (before & l & after & Heq & _). by destruct before.
  - destruct (time_Parse l raw) as [t'|] eqn:Hl.
    + split.
      * intros [= ->]. by exists [], l, rest.
      * intros ([|b before] & l' & after & [= <- ->] & Hb & Ht).
        -- congruence.
        -- apply Forall_cons in Hb as [Hb _]. congruence.
    + rewrite IH. split.
      * intros (before & l' & after & -> & Hb & Ht).
        exists (l :: before), l', after. split; [done|].
        split; [by apply Forall_cons|done].
      * intros ([|b before] & l' & after & [= <- ->] & Hb & Ht).
        -- congruence.
        -- apply Forall_cons in Hb as [_ Hb]. by exists before, l', after.
Qed.

(** X19: [parseTime] reads a text with the first of the known layouts that
    parses it once the white space around it is removed; a blank text has no
    date.  [fromHeader] has no date when the header is absent, and otherwise
    only the date [parseTime] reads in the first [Last-Modified] value. *)
Theorem parseTime_first_layout raw :
  (strings_TrimSpace raw = "" -> parseTime raw = None)
  ∧ (∀ t, parseTime raw = Some t
          ↔ strings_TrimSpace raw ≠ ""
            ∧ ∃ before layout after,
                knownFormats = before ++ layout :: after
                ∧ Forall (fun l => time_Parse l (strings_TrimSpace raw) = None)
                    before
                ∧ time_Parse layout (strings_TrimSpace raw) = Some t)
  ∧ (∀ header : Header,
       header !! "Last-Modified" = None -> fromHeader header = None)
  ∧ (∀ (header : Header) t,
       fromHeader header = Some t ->
       ∃ v vs, header !! "Last-Modified" = Some (v :: vs)
         ∧ parseTime (strings_TrimSpace v) = Some t).
Proof.
  unfold parseTime, fromHeader, Header_Get. split; [|split; [|split]].
  - by intros ->.
  - intros t. destruct (String.eqb_spec (strings_TrimSpace raw) "") as [Hb|Hb].
    + split; [done|]. by intros [? _].
    + rewrite parseLayouts_first. split; [done|by intros [_ ?]].
  - by intros header ->.
  - intros header t.
    destruct (header !! "Last-Modified") as [[|v vs]|]; try done.
    destruct (String.eqb (strings_TrimSpace v) ""); [done|]. by exists v, vs.
Qed.

End Dates.

(** The JSON-LD block of [datedPage] carries the date 2025-06-15. *)
Lemma fromJSONLD_first_dated_block_witness :
  ∃ before s after,
    Find sample.datedPage jsonldSelector = before ++ s :: after
    ∧ Forall (fun b => @blockDate plainStd b = None) before
    ∧ @blockDate plainStd s = Some (sample.day "2025-06-15").
Proof.
  destruct (@fromJSONLD_first_dated_block plainStd sample.datedPage)
    as (Hfirst & _).
  apply Hfirst. vm_compute. reflexivity.
Defined.

Lemma parseTime_first_layout_witness :
  strings_TrimSpace " 2024-01-02 " ≠ ""
  ∧ ∃ before layout after,
      knownFormats = before ++ layout :: after
      ∧ Forall (fun l => @time_Parse plainStd l
                           (strings_TrimSpace " 2024-01-02 ") = None) before
      ∧ @time_Parse plainStd layout (strings_TrimSpace " 2024-01-02 ")
        = Some (sample.day "2024-01-02").
Proof.
  destruct (@parseTime_first_layout plainStd " 2024-01-02 ") as (_ & Hfirst & _).
  apply Hfirst. vm_compute. reflexivity.
Defined.

(** *** Dates in nested JSON-LD objects *)

Lemma head_omap_first {A B} (f : A -> option B) (l : list A) (t : B) :
  head (omap f l) = Some t
  ↔ ∃ before x after, l = before ++ x :: after
      ∧ Forall (fun v => f v = None) before ∧ f x = Some t.
Proof.
  induction l as [|a l IH]; simpl.
  - split; [done|]. intros (before & x & after & Heq & _). by destruct before.
  - destruct (f a) as [t'|] eqn:Ha; simpl.
    + split.
      * intros [= ->]. by exists [], a, l.
      * intros ([|b before] & x & after & [= <- ->] & Hb & Ht).
        -- congruence.
        -- apply Forall_cons in Hb as [Hb _]. congruence.
    + rewrite IH. split.
      * intros (before & x & after & -> & Hb & Ht).
        exists (a :: before), x, after. split; [done|].
        split; [by apply Forall_cons|done].
      * intros ([|b before] & x & after & [= <- ->] & Hb & Ht).
        -- congruence.
        -- apply Forall_cons in Hb as [_ Hb]. by exists before, x, after.
Qed.

Section NestedDates.
Context `{GoStd}.

Lemma each_head items :
  (fix each (l : list JSON) : option Time :=
     match l with
     | [] => None
     | item :: l' =>
         match dateModifiedOf item with
         | Some t => Some t
         | None => each l'
         end
     end) items = head (omap dateModifiedOf items).
Proof.
  induction items as [|item items IH]; [done|].
  simpl. destruct (dateModifiedOf item); [done|]. exact IH.
Qed.

Lemma extractDateModified_unfold obj :
  extractDateModified obj
  = match directDate obj with
    | Some t => Some t
    | None =>
        match JMap_get "@graph" obj with
        | Some (JArray items) => head (omap dateModifiedOf items)
        | _ => None
        end
    end.
Proof.
  unfold extractDateModified, directDate. simpl.
  destruct (match JMap_get "dateModified" obj with
            | Some (JString s) => parseTime s
            | _ => None
            end); [done|].
  induction obj as [|[k g] fs IH]; [done|].
  simpl. destruct (String.eqb k "@graph"); [|exact IH].
  destruct g; try done. apply each_head.
Qed.

Lemma dateModifiedOf_none v :
  dateModifiedOf v = None
  ↔ ∀ o, v = JObject o -> extractDateModified o = None.
Proof.
  destruct v; try (split; [by intros _ o [=]|done]).
  split; [by intros Hn o [= <-]|]. intros Ho. by apply Ho.
Qed.

(** X20: [extractDateModified] returns the date under [dateModified] of the
    object itself when that is a text [parseTime] reads; otherwise the date
    of the first item of its [@graph] array that is an object with a date,
    found in the same way; and nothing else. *)
Theorem extractDateModified_direct_then_graph obj t :
  extractDateModified obj = Some t
  ↔ directDate obj = Some t
    ∨ (directDate obj = None
       ∧ ∃ items before item after,
           JMap_get "@graph" obj = Some (JArray items)
           ∧ items = before ++ JObject item :: after
           ∧ Forall (fun v => ∀ o, v = JObject o ->
                                extractDateModified o = None) before
           ∧ extractDateModified item = Some t).
Proof.
  rewrite extractDateModified_unfold.
  destruct (directDate obj) as [t'|].
  { split; [intros [= ->]; by left|]. by intros [?|[? _]]. }
  split.
  - intros Hg. right. split; [done|].
    destruct (JMap_get "@graph" obj) as [[| | | |items|]|]; try done.
    apply head_omap_first in Hg as (before & x & after & -> & Hb & Hx).
    destruct x as [| | | | |item]; try done.
    exists (before ++ JObject item :: after), before, item, after.
    split; [done|]. split; [done|]. split; [|done].
    eapply Forall_impl; [exact Hb|]. intros v. apply dateModifiedOf_none.
  - intros [?|(_ & items & before & item & after & -> & -> & Hb & Hi)];
      [done|].
    apply head_omap_first. exists before, (JObject item), after.
    split; [done|]. split; [|done].
    eapply Forall_impl; [exact Hb|]. intros v. apply dateModifiedOf_none.
Qed.

End NestedDates.

(** The date sits in the second item of the [@graph] array; the first item
    is no object. *)
Lemma extractDateModified_direct_then_graph_witness :
  @directDate plainStd
    [("@graph", JArray [ JString "x";
                         JObject [("dateModified", JString "2024-01-02")] ])]
  = Some (sample.day "2024-01-02")
  ∨ (@directDate plainStd
       [("@graph", JArray [ JString "x";
                            JObject [("dateModified", JString "2024-01-02")] ])]
     = None
     ∧ ∃ items before item after,
         JMap_get "@graph"
           [("@graph",
             JArray [ JString "x";
                      JObject [("dateModified", JString "2024-01-02")] ])]
         = Some (JArray items)
         ∧ items = before ++ JObject item :: after
         ∧ Forall (fun v => ∀ o, v = JObject o ->
                              @extractDateModified plainStd o = None) before
         ∧ @extractDateModified plainStd item
           = Some (sample.day "2024-01-02")).
Proof.
  apply (@extractDateModified_direct_then_graph plainStd).
  vm_compute. reflexivity.
Defined.

(** *** The collector [Crawl] builds *)



(** *** The links that are followed *)

(** X22: what an [OnHTML] callback hands to [Visit] does not depend on the
    state of the crawl; it hands over the normalized link [u] exactly when
    the href is not blank, resolves to a URL that is not empty and normalizes
    to [u], the link is HTTP(S) on the host of the root, and no exclusion
    pattern matches [u]. *)
Theorem links_handed_to_Visit `{GoStd} root opts e :
  (∀ st, (onHTML root opts st e).2 = handedToVisit root opts e)
  ∧ ∀ u, handedToVisit root opts e = Some u
         ↔ strings_TrimSpace (elem_href e) ≠ ""
           ∧ elem_AbsoluteURL e (strings_TrimSpace (elem_href e)) ≠ ""
           ∧ ∃ parsed, linkOf e = Some (u, parsed)
               ∧ isHTTP (Some parsed) = true
               ∧ isInternal (Some root) (Some parsed) = true
               ∧ shouldExclude u (ExcludePatterns opts) = false.
Proof.
  split; [intros st; by rewrite (onHTML_effect root opts (mkTime 0 "UTC"))|].
  intros u. unfold handedToVisit, linkOf, onHTML.
  destruct (String.eqb_spec (strings_TrimSpace (elem_href e)) "") as [Hb|Hb].
  { split; [done|]. by intros [? _]. }
  destruct (String.eqb_spec
              (elem_AbsoluteURL e (strings_TrimSpace (elem_href e))) "")
    as [Ha|Ha].
  { split; [done|]. by intros (_ & ? & _). }
  destruct (crawler.normalizeURL _) as [[n p]|];
    [|split; [done|]; by intros (_ & _ & ? & [=] & _)].
  simpl.
  destruct (String.eqb (Scheme p) "http" || String.eqb (Scheme p) "https")
    eqn:Hh; simpl;
    [|split; [done|]; intros (_ & _ & q & [= <- <-] & ? & _); congruence].
  destruct (strings_EqualFold (url_Hostname root) (url_Hostname p)) eqn:Hi;
    simpl;
    [|split; [done|]; intros (_ & _ & q & [= <- <-] & _ & ? & _); congruence].
  destruct (shouldExclude n (ExcludePatterns opts)) eqn:He; simpl.
  - split; [done|]. intros (_ & _ & q & [= <- <-] & _ & _ & ?). congruence.
  - split.
    + intros [= <-]. split; [done|]. split; [done|]. by exists p.
    + intros (_ & _ & q & [= <- <-] & _). done.
Qed.

(** The root page links to [/a]; a link to another host is not followed. *)
Lemma links_handed_to_Visit_witness :
  strings_TrimSpace "/a" ≠ ""
  ∧ (if strings_HasPrefix (strings_TrimSpace "/a") "/"
     then "https://x" +:+ strings_TrimSpace "/a" else strings_TrimSpace "/a")
    ≠ ""
  ∧ ∃ parsed,
      @linkOf plainStd
        (mkHTMLElement "/a" "https://x/"
           (fun raw => if strings_HasPrefix raw "/" then "https://x" +:+ raw
                       else raw))
      = Some ("https://x/a", parsed)
      ∧ isHTTP (Some parsed) = true
      ∧ @isInternal plainStd (Some sample.rootX) (Some parsed) = true
      ∧ @shouldExclude plainStd "https://x/a" [] = false.
Proof.
  destruct (@links_handed_to_Visit plainStd sample.rootX
              (sample.opts "https://x/" [])
              (mkHTMLElement "/a" "https://x/"
                 (fun raw => if strings_HasPrefix raw "/"
                             then "https://x" +:+ raw else raw)))
    as [_ Hlink].
  apply (Hlink "https://x/a"). vm_compute. reflexivity.
Defined.

(** *** Timestamps that outlive a failure *)

Lemma foldl_handle_lastModified_kept `{GoStd} root opts now post st u :
  (∀ cb s, cb ∈ post -> outcome cb = Some (u, s) -> isFailure cb = true) ->
  lastModified (foldl (handle root opts now) st post) !! u
  = lastModified st !! u.
Proof.
  revert st. induction post as [|cb post IH]; intros st Hpost; [done|].
  simpl. rewrite IH by (intros cb' s Hin; apply Hpost; by right).
  rewrite handle_effect, applyEffect_lastModified.
  destruct (effectOf root opts now cb) as [| |l q|v t|v c b] eqn:He; try done.
  destruct (decide (v = u)) as [->|Hne]; [|by rewrite lookup_insert_ne].
  pose proof (effectOf_outcome root opts now cb) as Ho. rewrite He in Ho.
  destruct (outcome cb) as [[v' s]|] eqn:Hout; [|done].
  destruct (isFailure cb) eqn:Hfail.
  - by destruct Ho as [seen [=]].
  - destruct Ho as (t' & [= -> ->] & _).
    rewrite (Hpost cb s) in Hfail; [done|left|done].
Qed.

(** X23: [LastModified] keeps the timestamp of the last success response
    for a URL, whatever follows: when the run has a 2xx/3xx response for [u]
    and every later report on [u] is a failure, the entry of [u] is the
    timestamp [GetLastModified] computes for that response, also when [u] has
    ended up in [BrokenLinks] or matches an exclusion pattern. *)
Theorem LastModified_of_last_success `{GoStd}
    collector now opts start root r pre resp post u p :
  normalizeRoot (RootURL opts) = inr (start, root) ->
  Crawl collector now opts = inr r ->
  run_Callbacks (collector (collectorConfig (withDefaults opts) root) start)
  = pre ++ OnResponse resp :: post ->
  crawler.normalizeURL (resp_RequestURL resp) = Some (u, p) ->
  200 <= resp_StatusCode resp < 400 ->
  (∀ cb s, cb ∈ post -> outcome cb = Some (u, s) -> isFailure cb = true) ->
  LastModified r !! u
  = Some (GetLastModified (resp_Headers resp) (resp_Document resp) now).
Proof.
  intros Hroot Hr Hrun Hu Hok Hpost.
  rewrite (Crawl_result _ _ _ _ _ _ Hroot Hr), Hrun.
  unfold assemble, runCallbacks. cbn [LastModified].
  rewrite foldl_app. cbn [foldl].
  rewrite (foldl_handle_lastModified_kept _ _ _ _ _ _ Hpost).
  cbn [handle]. unfold onResponse. rewrite Hu.
  assert (Hs : (200 <=? resp_StatusCode resp)
               && (resp_StatusCode resp <? 400) = true).
  { apply andb_true_iff. split; [apply Z.leb_le|apply Z.ltb_lt]; lia. }
  rewrite Hs. simpl. by rewrite lookup_insert_eq.
Qed.

(** [/a] answers 200 and then fails with a 500: it is broken in the result
    and keeps the timestamp of the response. *)
Lemma LastModified_of_last_success_witness :
  ∃ r, @Crawl plainStd
         (sample.runOf [ sample.served "https://x/" 200 sample.plainPage;
                         sample.anchor "/a" "https://x/";
                         sample.served "https://x/a" 200 sample.datedPage;
                         sample.failed "https://x/a" 500 ])
         sample.now (sample.opts "https://x/" []) = inr r
       ∧ BrokenLinks r !! "https://x/a" = Some 500
       ∧ LastModified r !! "https://x/a"
         = Some (@GetLastModified plainStd None (Some sample.datedPage)
                   sample.now).
Proof.
  eexists. split; [vm_compute; reflexivity|].
  split; [vm_compute; reflexivity|].
  eapply (@LastModified_of_last_success plainStd
            (sample.runOf [ sample.served "https://x/" 200 sample.plainPage;
                            sample.anchor "/a" "https://x/";
                            sample.served "https://x/a" 200 sample.datedPage;
                            sample.failed "https://x/a" 500 ])
            sample.now (sample.opts "https://x/" []) "https://x/" sample.rootX _
            [ sample.served "https://x/" 200 sample.plainPage;
              sample.anchor "/a" "https://x/" ]
            (mkResponse "https://x/a" 200 None (Some sample.datedPage))
            [ sample.failed "https://x/a" 500 ]).
  - vm_compute. reflexivity.
  - vm_compute. reflexivity.
  - reflexivity.
  - vm_compute. reflexivity.
  - simpl. lia.
  - intros cb s ->%list_elem_of_singleton _. reflexivity.
Defined.
